(** * Product image gallery: the CRUD routes and the popup controller

    A shallow embedding of
    - the Express product router (the in-memory [products] array and its
      GET / POST / PUT / DELETE handlers),
    - the click handler of [popup.js] and the popup functions of
      [enhanced_popup.js],
    together with the properties of the specification that concern them. *)

From Stdlib Require Import PrimFloat ZArith Lia.
From stdpp Require Import gmap strings list.

Set Warnings "-register-all,-inexact-float".

Open Scope Z_scope.

(** ** JavaScript values

    Request bodies are parsed JSON (or url-encoded forms), so a field of
    [req.body] is one of the JSON values, or [undefined] when the key is
    absent.  Numbers are binary64 floats, as in JavaScript. *)

Module Js.

Inductive JsVal : Type :=
| JUndefined
| JNull
| JBool (b : bool)
| JNum (f : float)
| JStr (s : string)
| JArr (l : list JsVal)
| JObj (l : list (string * JsVal)).

(** ToBoolean: [undefined], [null], [false], [0], [-0], [NaN] and the
    empty string are falsy; everything else, objects and arrays included,
    is truthy. *)
Definition truthy (v : JsVal) : bool :=
  match v with
  | JUndefined | JNull => false
  | JBool b => b
  | JNum f => negb (PrimFloat.is_zero f || PrimFloat.is_nan f)
  | JStr s => negb (String.eqb s "")
  | JArr _ | JObj _ => true
  end.

(** [a || b] *)
Definition js_or (a b : JsVal) : JsVal := if truthy a then a else b.

(** [o.k] on a parsed body: the value under the key, [undefined] when the
    key is absent. *)
Definition prop (o : gmap string JsVal) (k : string) : JsVal :=
  default JUndefined (o !! k).

End Js.

Import Js.

(** ** The product router *)

Module ProductRoutes.

Record Product : Type := mkProduct {
  id : Z;
  name : JsVal;
  description : JsVal;
  price : JsVal;
  imageUrl : JsVal;
  thumbnailUrl : JsVal
}.

(** The mock data the module starts with. *)
Definition initial_products : list Product :=
  [ mkProduct 1 (JStr "Product 1") (JStr "This is product 1") (JNum 19.99%float)
      (JStr "/images/product1.jpg") (JStr "/images/thumbnails/product1.jpg");
    mkProduct 2 (JStr "Product 2") (JStr "This is product 2") (JNum 29.99%float)
      (JStr "/images/product2.jpg") (JStr "/images/thumbnails/product2.jpg");
    mkProduct 3 (JStr "Product 3") (JStr "This is product 3") (JNum 39.99%float)
      (JStr "/images/product3.jpg") (JStr "/images/thumbnails/product3.jpg") ].

Inductive Payload : Type :=
| PProducts (l : list Product)
| PProduct (p : Product)
| PMessage (message : string).

(** [res.status(s).json(payload)]; [res.json] alone answers 200. *)
Record Response : Type := Json { status : Z; payload : Payload }.

Definition not_found : Response := Json 404 (PMessage "Product not found").

(** [p.id === parseInt(req.params.id)].  The route parameter enters the
    model as the value of [parseInt]: [Some n] for an integer, [None] for
    [NaN], which is strictly equal to no id. *)
Definition has_id (param : option Z) (p : Product) : Prop := Some (id p) = param.

#[global] Instance has_id_dec param p : Decision (has_id param p).
Proof. unfold has_id. apply _. Defined.

(** [router.get('/')] *)
Definition get_all (products : list Product) : Response :=
  Json 200 (PProducts products).

(** [router.get('/:id')] *)
Definition get_by_id (param : option Z) (products : list Product) : Response :=
  match list_find (has_id param) products with
  | None => not_found
  | Some (_, product) => Json 200 (PProduct product)
  end.

(** [router.post('/')] *)
Definition post (body : gmap string JsVal) (products : list Product)
  : list Product * Response :=
  let newProduct :=
    {| id := Z.of_nat (length products) + 1;
       name := prop body "name";
       description := prop body "description";
       price := prop body "price";
       imageUrl := js_or (prop body "imageUrl") (JStr "/images/placeholder.jpg");
       thumbnailUrl :=
         js_or (prop body "thumbnailUrl") (JStr "/images/thumbnails/placeholder.jpg") |} in
  (products ++ [newProduct], Json 201 (PProduct newProduct)).

(** The object literal of [router.put]: the spread keeps [id], the five
    other fields are [req.body.f || products[productIndex].f]. *)
Definition merge (old : Product) (body : gmap string JsVal) : Product :=
  {| id := id old;
     name := js_or (prop body "name") (name old);
     description := js_or (prop body "description") (description old);
     price := js_or (prop body "price") (price old);
     imageUrl := js_or (prop body "imageUrl") (imageUrl old);
     thumbnailUrl := js_or (prop body "thumbnailUrl") (thumbnailUrl old) |}.

(** [router.put('/:id')] *)
Definition put (param : option Z) (body : gmap string JsVal) (products : list Product)
  : list Product * Response :=
  match list_find (has_id param) products with
  | None => (products, not_found)
  | Some (productIndex, old) =>
      let updatedProduct := merge old body in
      (<[productIndex := updatedProduct]> products, Json 200 (PProduct updatedProduct))
  end.

(** [router.delete('/:id')] *)
Definition delete (param : option Z) (products : list Product)
  : list Product * Response :=
  match list_find (has_id param) products with
  | None => (products, not_found)
  | Some _ =>
      (filter (λ p, ¬ has_id param p) products,
       Json 200 (PMessage "Product deleted successfully"))
  end.

(** Requests, and the router run over a sequence of them. *)
Inductive Request : Type :=
| GetAll
| GetById (param : option Z)
| Post (body : gmap string JsVal)
| Put (param : option Z) (body : gmap string JsVal)
| Delete (param : option Z).

Definition handle (r : Request) (products : list Product) : list Product * Response :=
  match r with
  | GetAll => (products, get_all products)
  | GetById param => (products, get_by_id param products)
  | Post body => post body products
  | Put param body => put param body products
  | Delete param => delete param products
  end.

Definition serve (rs : list Request) (products : list Product) : list Product :=
  foldl (λ ps r, (handle r ps).1) products rs.

Definition is_post (r : Request) : bool :=
  match r with Post _ => true | _ => false end.

Definition is_delete (r : Request) : bool :=
  match r with Delete _ => true | _ => false end.

(** The ids are 1, 2, ..., in the order of the store. *)
Definition numbered (products : list Product) : Prop :=
  id <$> products = (λ n, Z.of_nat n + 1) <$> seq 0 (length products).

(** The five mutable fields, by key. *)
Inductive Field : Type := FName | FDescription | FPrice | FImageUrl | FThumbnailUrl.

Definition key (f : Field) : string :=
  match f with
  | FName => "name"
  | FDescription => "description"
  | FPrice => "price"
  | FImageUrl => "imageUrl"
  | FThumbnailUrl => "thumbnailUrl"
  end.

Definition field (f : Field) (p : Product) : JsVal :=
  match f with
  | FName => name p
  | FDescription => description p
  | FPrice => price p
  | FImageUrl => imageUrl p
  | FThumbnailUrl => thumbnailUrl p
  end.

(** No product of the store carries the requested id. *)
Definition absent (param : option Z) (products : list Product) : Prop :=
  Forall (λ p, ¬ has_id param p) products.

End ProductRoutes.

(** ** The image store

    The image endpoints are served by the Python backend, which is not among
    the JavaScript sources; the store below follows the specification's data
    model (section 3) and operations (sections 4.1 and 6). *)

Module ImageStore.

(** Modelled from the spec: the image types of the data model, missing from
    the sources. *)
Inductive ImageType : Type := Main | Detail | Package | Lifestyle.

(** Modelled from the spec: the Image of the data model, missing from the
    sources. *)
Record Image : Type := mkImage {
  imageId : Z;
  productId : Z;
  url : string;
  thumbnailUrl : string;
  altText : string;
  imageType : ImageType;
  isPrimary : bool
}.

(** Modelled from the spec: the store behind the image endpoints, which is
    missing from the sources: the live product ids, the images, and the two
    monotonically increasing id counters of the design notes. *)
Record Store : Type := mkStore {
  products : list Z;
  images : list Image;
  nextProductId : Z;
  nextImageId : Z
}.

(** Modelled from the spec: the store a process starts with, missing from the
    sources: no product, no image, both counters at 1. *)
Definition empty : Store := mkStore [] [] 1 1.

(** Modelled from the spec: the outcome of a store operation, missing from
    the sources: a value, or the NotFound of section 7. *)
Inductive Result (A : Type) : Type :=
| Ok (a : A)
| NotFound.
Arguments Ok {A} a.
Arguments NotFound {A}.

Definition set_primary (b : bool) (im : Image) : Image :=
  mkImage (imageId im) (productId im) (url im) (thumbnailUrl im) (altText im)
    (imageType im) b.

(** The image [imageId] of product [pid]. *)
Definition is_image (pid iid : Z) (im : Image) : Prop :=
  productId im = pid ∧ imageId im = iid.

#[global] Instance is_image_dec pid iid im : Decision (is_image pid iid im).
Proof. unfold is_image. apply _. Defined.

(** Modelled from the spec: clearing the primary flag on every image of a
    product, the missing half of "atomically clear the flag on the previous
    primary". *)
Definition clear_primary (pid : Z) (ims : list Image) : list Image :=
  (λ im, if decide (productId im = pid) then set_primary false im else im) <$> ims.

(** Modelled from the spec: what [setPrimaryImage] does to one image, missing
    from the sources: an image of the product is primary exactly when it is
    the one named. *)
Definition mark_primary (pid iid : Z) (im : Image) : Image :=
  if decide (productId im = pid)
  then set_primary (bool_decide (imageId im = iid)) im
  else im.

(** Modelled from the spec: [create] of section 4.1, missing from the sources
    as far as the image store is concerned: a new unique product id. *)
Definition createProduct (s : Store) : Store * Z :=
  (mkStore (products s ++ [nextProductId s]) (images s)
     (nextProductId s + 1) (nextImageId s),
   nextProductId s).

(** Modelled from the spec: the upload endpoint (POST
    /api/popups/product/{id}/image), missing from the sources: it creates the
    image under a new id and, when [is_primary] is set, makes it the only
    primary image of its product. *)
Definition uploadImage (pid : Z) (u t alt : string) (ty : ImageType) (is_primary : bool)
    (s : Store) : Result (Store * Image) :=
  if decide (pid ∈ products s) then
    let im := mkImage (nextImageId s) pid u t alt ty is_primary in
    Ok (mkStore (products s)
          ((if is_primary then clear_primary pid (images s) else images s) ++ [im])
          (nextProductId s) (nextImageId s + 1),
        im)
  else NotFound.

(** Modelled from the spec: [setPrimaryImage(productId, imageId)] of section
    4.1, missing from the sources: NotFound if either id is unknown, otherwise
    the flag is set on that image and cleared on the other images of the
    product, in one step. *)
Definition setPrimaryImage (pid iid : Z) (s : Store) : Result Store :=
  if decide (pid ∈ products s) then
    match list_find (is_image pid iid) (images s) with
    | None => NotFound
    | Some _ =>
        Ok (mkStore (products s) (mark_primary pid iid <$> images s)
              (nextProductId s) (nextImageId s))
    end
  else NotFound.

(** Modelled from the spec: the delete-image endpoint, missing from the
    sources. *)
Definition deleteImage (pid iid : Z) (s : Store) : Result Store :=
  if decide (pid ∈ products s) then
    match list_find (is_image pid iid) (images s) with
    | None => NotFound
    | Some _ =>
        Ok (mkStore (products s) (filter (λ im, ¬ is_image pid iid im) (images s))
              (nextProductId s) (nextImageId s))
    end
  else NotFound.

(** Modelled from the spec: [delete(id)] of section 4.1 on the image store,
    missing from the sources: the product goes, and its images with it. *)
Definition deleteProduct (pid : Z) (s : Store) : Result Store :=
  if decide (pid ∈ products s) then
    Ok (mkStore (filter (λ p, p ≠ pid) (products s))
          (filter (λ im, productId im ≠ pid) (images s))
          (nextProductId s) (nextImageId s))
  else NotFound.

(** The primary images of a product. *)
Definition primary_images (pid : Z) (ims : list Image) : list Image :=
  filter (λ im, productId im = pid ∧ isPrimary im = true) ims.

Definition primaries (pid : Z) (s : Store) : list Image :=
  primary_images pid (images s).

(** Image ids are given once: they are pairwise distinct and below the
    counter. *)
Definition ids_fresh (s : Store) : Prop :=
  NoDup (imageId <$> images s) ∧ Forall (λ im, imageId im < nextImageId s) (images s).

(** Modelled from the spec: the reachable store states, missing from the
    sources with the store: those the operations lead to from the empty
    store. *)
Inductive reachable : Store → Prop :=
| reach_empty : reachable empty
| reach_createProduct s : reachable s → reachable (createProduct s).1
| reach_uploadImage s pid u t alt ty b s' im :
    reachable s → uploadImage pid u t alt ty b s = Ok (s', im) → reachable s'
| reach_setPrimaryImage s pid iid s' :
    reachable s → setPrimaryImage pid iid s = Ok s' → reachable s'
| reach_deleteImage s pid iid s' :
    reachable s → deleteImage pid iid s = Ok s' → reachable s'
| reach_deleteProduct s pid s' :
    reachable s → deleteProduct pid s = Ok s' → reachable s'.

End ImageStore.

(** ** popup.js: the click handler of the product grid *)

Module PopupOnClick.

(** The document as the handler sees it: the product cards in order, each
    with the [active] class of its [.product-popup], or [None] for a card
    without one. *)
Abbreviation Cards := (list (option bool)).

(** Where a click lands. *)
Inductive Target : Type :=
| OnProductImage (card : nat)
| InPopup (card : nat)
| Elsewhere.

Definition deactivate (popup : option bool) : option bool := (λ _, false) <$> popup.

(** [document.querySelectorAll('.product-popup.active').forEach(p => { if (p
    !== popup) p.classList.remove('active') })] *)
Definition hide_others (card : nat) (cards : Cards) : Cards :=
  imap (λ i popup, if decide (i = card) then popup else deactivate popup) cards.

(** [popup.classList.toggle('active')] *)
Definition toggle (card : nat) (cards : Cards) : Cards :=
  alter (fmap negb) card cards.

(** The listener [setupPopupOnClick] installs on the document. *)
Definition on_click (t : Target) (cards : Cards) : Cards :=
  let shown :=
    match t with
    | OnProductImage card =>
        match cards !! card with
        | Some (Some _) => toggle card (hide_others card cards)
        | _ => cards
        end
    | _ => cards
    end in
  match t with
  | Elsewhere => deactivate <$> shown
  | _ => shown
  end.

(** [popup.classList.remove('active')] on the popup of one card, as
    [saveProductData] does after a successful save. *)
Definition hide (card : nat) (cards : Cards) : Cards :=
  alter deactivate card cards.

(** What happens to the grid: a click anywhere in the document, or the end of
    a save. *)
Inductive Action : Type :=
| Click (t : Target)
| Saved (card : nat).

Definition act (a : Action) (cards : Cards) : Cards :=
  match a with
  | Click t => on_click t cards
  | Saved card => hide card cards
  end.

(** The cards as [renderProducts] writes them: no popup is active. *)
Definition rendered (cards : Cards) : Prop := Forall (λ popup, popup ≠ Some true) cards.

Definition active_popups (cards : Cards) : list (option bool) :=
  filter (λ popup, popup = Some true) cards.

End PopupOnClick.

(** ** enhanced_popup.js: the popup functions

    The document is reduced to what the functions read and write: the popup
    overlays, the loading overlay, the notifications, the pending timers and
    the requests in flight.  An [async] function is split at its [await]:
    the part before it runs with the triggering event, the part after it
    when the request settles.

    The script writes ids and texts into selectors and markup as they come.
    The model takes them as the backend sends them: a product or image id
    is the text of a number, so that [#popup-name-${productId}] is a
    selector (otherwise [querySelector] throws in [savePopupChanges], whose
    [catch] then runs before any request is sent), and the fields of a
    response hold text, not markup.  A notification is found again by the millisecond it
    was created in; two notifications are taken to be created in different
    milliseconds. *)

Module EnhancedPopup.

(** *** Markup *)

(** An element with its tag, its classes and its children, or a text. *)
Inductive Node : Type :=
| Element (tag : string) (classes : list string) (children : list Node)
| Text (s : string).

(** The first result of [f] along a list. *)
Definition first_some {A B : Type} (f : A → option B) : list A → option B :=
  fix go (l : list A) : option B :=
    match l with
    | [] => None
    | x :: l' =>
        match f x with
        | Some y => Some y
        | None => go l'
        end
    end.

(** The first node, in document order, among [n] and its descendants that
    carries the class. *)
Fixpoint find_class (cls : string) (n : Node) : option Node :=
  match n with
  | Text _ => None
  | Element _ classes children =>
      if decide (cls ∈ classes) then Some n
      else first_some (find_class cls) children
  end.

(** [container.querySelector('.cls')]: the descendants only. *)
Definition querySelector (cls : string) (container : Node) : option Node :=
  match container with
  | Text _ => None
  | Element _ _ children => first_some (find_class cls) children
  end.

(** The body of a popup response that [createProductPopupHtml] renders:
    [popup_id] and the fields of [data]. *)
Record PopupData : Type := mkPopupData {
  popup_id : string;
  title : string;
  image_url : string;
  description : string;
  additional_images : list string;
  product_id : string
}.

(** The body of an image popup response: [id] and [product_id] of the
    response, and the fields of its [data]. *)
Record ImageData : Type := mkImageData {
  image_id : string;
  image_product_id : string;
  product_name : string;
  image_src : string;
  alt_text : string;
  image_type : string;
  is_primary : bool
}.

(** An entry of the gallery response's [images]. *)
Record GalleryImage : Type := mkGalleryImage {
  gallery_image_id : string;
  gallery_url : string;
  gallery_thumbnail_url : string;
  gallery_alt_text : string;
  gallery_is_primary : bool
}.

Definition or_default (s d : string) : string := if String.eqb s "" then d else s.

Definition button (cls label : string) : Node := Element "button" [cls] [Text label].

(** One entry of the [additional_images] gallery. *)
Definition gallery_item : Node :=
  Element "div" ["gallery-item"] [Element "img" ["gallery-image"] []].

(** The parts of the markup [createProductPopupHtml] writes; attributes other
    than [class] are left out. *)
Definition popup_header (d : PopupData) : Node :=
  Element "div" ["enhanced-popup-header"]
    [ Element "h3" [] [Text (title d)]; button "close-btn" "&times;" ].

Definition popup_body (d : PopupData) : Node :=
  Element "div" ["enhanced-popup-body"]
    [ Element "div" ["popup-main-image"] [Element "img" [] []];
      Element "div" ["popup-details"]
        [ Element "div" ["form-group"]
            [ Element "label" [] [Text "Product Name:"];
              Element "input" ["popup-field"] [] ];
          Element "div" ["detail-group"]
            [ Element "label" [] [Text "Description:"];
              Element "p" []
                [Text (or_default (description d) "No description available")] ];
          Element "div" ["popup-actions"]
            [ button "btn-save-popup" "Save Changes";
              button "btn-view-all" "View All Images";
              button "btn-cancel-popup" "Cancel" ] ] ].

(** [galleryHtml]: empty unless there are additional images. *)
Definition galleryHtml (d : PopupData) : list Node :=
  match additional_images d with
  | [] => []
  | imgs =>
      [ Element "div" ["enhanced-popup-gallery"]
          [ Element "h4" [] [Text "Additional Images"];
            Element "div" ["gallery-container"] ((λ _, gallery_item) <$> imgs) ] ]
  end.

(** [createProductPopupHtml] *)
Definition createProductPopupHtml (d : PopupData) : Node :=
  Element "div" ["enhanced-popup-content"; "product-popup-type"]
    ([popup_header d; popup_body d] ++ galleryHtml d).

(** *** The document *)

Inductive Content : Type :=
| ProductPopup (d : PopupData)
| ImagePopup (d : ImageData)
| GalleryPopup (d : PopupData) (images : list GalleryImage).

(** A [div.enhanced-popup-overlay] the script created.  [attached]: it is a
    child of [document.body]; [active] and [content_active]: the class
    [active] on the overlay and on its [.enhanced-popup-content];
    [primary_checked]: the [#is-primary] box of an image popup; [save_label]
    and [save_disabled]: text and [disabled] of its save button. *)
Record Overlay : Type := mkOverlay {
  node : nat;
  content : Content;
  attached : bool;
  active : bool;
  content_active : bool;
  primary_checked : bool;
  save_label : string;
  save_disabled : bool
}.

Record Notification : Type := mkNotification {
  notification_node : nat;
  notification_title : string;
  notification_message : string;
  notification_active : bool
}.

(** What a pending [setTimeout] will do. *)
Inductive Task : Type :=
| ActivateOverlay (n : nat)
| RemoveOverlay (n : nat)
| ActivateLoading (n : nat)
| RemoveLoading (n : nat)
| ActivateNotification (n : nat)
| CloseNotification (n : nat)
| RemoveNotification (n : nat)
| RefreshCard (productId : string).

(** A request in flight, named after the code that waits for it. *)
Inductive Fetch : Type :=
| ProductPopupFetch (productId : string)
| ImagePopupFetch (imageId : string)
| GalleryFetch (productId : string)
| SaveProductFetch (productId : string)
| SaveImageFetch (overlay : nat) (productId imageId : string)
| CardFetch (productId : string).

Record Ui : Type := mkUi {
  fresh : nat;
  overlays : list Overlay;
  loading : option (nat * bool);
  notifications : list Notification;
  timers : list (nat * Task);
  pending : list Fetch;
  cards : list string
}.

(** The page after [DOMContentLoaded], with the product cards it shows. *)
Definition init (cards : list string) : Ui := mkUi 0 [] None [] [] [] cards.

Definition set_fresh (n : nat) (ui : Ui) : Ui :=
  mkUi n (overlays ui) (loading ui) (notifications ui) (timers ui) (pending ui) (cards ui).
Definition set_overlays (l : list Overlay) (ui : Ui) : Ui :=
  mkUi (fresh ui) l (loading ui) (notifications ui) (timers ui) (pending ui) (cards ui).
Definition set_loading (l : option (nat * bool)) (ui : Ui) : Ui :=
  mkUi (fresh ui) (overlays ui) l (notifications ui) (timers ui) (pending ui) (cards ui).
Definition set_notifications (l : list Notification) (ui : Ui) : Ui :=
  mkUi (fresh ui) (overlays ui) (loading ui) l (timers ui) (pending ui) (cards ui).
Definition set_timers (l : list (nat * Task)) (ui : Ui) : Ui :=
  mkUi (fresh ui) (overlays ui) (loading ui) (notifications ui) l (pending ui) (cards ui).
Definition set_pending (l : list Fetch) (ui : Ui) : Ui :=
  mkUi (fresh ui) (overlays ui) (loading ui) (notifications ui) (timers ui) l (cards ui).

(** [setTimeout(task, delay)] *)
Definition setTimeout (delay : nat) (t : Task) (ui : Ui) : Ui :=
  set_timers (timers ui ++ [(delay, t)]) ui.

(** [fetch(...)]: one more request in flight. *)
Definition fetch (f : Fetch) (ui : Ui) : Ui := set_pending (pending ui ++ [f]) ui.

Definition update_overlay (n : nat) (f : Overlay → Overlay) (ui : Ui) : Ui :=
  set_overlays ((λ o, if decide (node o = n) then f o else o) <$> overlays ui) ui.

Definition set_attached (b : bool) (o : Overlay) : Overlay :=
  mkOverlay (node o) (content o) b (active o) (content_active o)
    (primary_checked o) (save_label o) (save_disabled o).
Definition set_active (b c : bool) (o : Overlay) : Overlay :=
  mkOverlay (node o) (content o) (attached o) b c
    (primary_checked o) (save_label o) (save_disabled o).
Definition set_primary_checked (b : bool) (o : Overlay) : Overlay :=
  mkOverlay (node o) (content o) (attached o) (active o) (content_active o)
    b (save_label o) (save_disabled o).
Definition set_save (label : string) (disabled : bool) (o : Overlay) : Overlay :=
  mkOverlay (node o) (content o) (attached o) (active o) (content_active o)
    (primary_checked o) label disabled.

(** [document.querySelectorAll('.enhanced-popup-overlay')] *)
Definition attached_overlays (ui : Ui) : list Overlay :=
  filter (λ o, attached o = true) (overlays ui).

(** The overlays on screen: attached, with the class [active] that gives
    them their opacity. *)
Definition visible_overlays (ui : Ui) : list Overlay :=
  filter (λ o, attached o = true ∧ active o = true) (overlays ui).

(** The attached overlay with node [n], if any: the overlay a click can
    land in. *)
Definition overlay_at (n : nat) (ui : Ui) : option Overlay :=
  snd <$> list_find (λ o, node o = n ∧ attached o = true) (overlays ui).

(** The overlay element with node [n], attached or not. *)
Definition element (n : nat) (ui : Ui) : option Overlay :=
  snd <$> list_find (λ o, node o = n) (overlays ui).

(** *** Helpers of the script *)

(** [showLoadingOverlay] *)
Definition showLoadingOverlay (ui : Ui) : Ui :=
  match loading ui with
  | Some (n, _) => setTimeout 10 (ActivateLoading n) ui
  | None =>
      let n := fresh ui in
      setTimeout 10 (ActivateLoading n)
        (set_loading (Some (n, false)) (set_fresh (S n) ui))
  end.

(** [hideLoadingOverlay] *)
Definition hideLoadingOverlay (ui : Ui) : Ui :=
  match loading ui with
  | Some (n, _) => setTimeout 300 (RemoveLoading n) (set_loading (Some (n, false)) ui)
  | None => ui
  end.

(** [showNotification(title, message)].  The element is found again by its
    id, [notification-${Date.now()}]; the model gives it a node of its
    own. *)
Definition showNotification (title message : string) (ui : Ui) : Ui :=
  let n := fresh ui in
  setTimeout 5000 (CloseNotification n)
    (setTimeout 10 (ActivateNotification n)
       (set_notifications (notifications ui ++ [mkNotification n title message false])
          (set_fresh (S n) ui))).

Definition set_notification_active (b : bool) (x : Notification) : Notification :=
  mkNotification (notification_node x) (notification_title x) (notification_message x) b.

Definition update_notification (n : nat) (f : Notification → Notification) (ui : Ui) : Ui :=
  set_notifications
    ((λ x, if decide (notification_node x = n) then f x else x) <$> notifications ui) ui.

(** [closeNotification(notificationId)] *)
Definition closeNotification (n : nat) (ui : Ui) : Ui :=
  match list_find (λ x, notification_node x = n) (notifications ui) with
  | Some _ =>
      setTimeout 300 (RemoveNotification n)
        (update_notification n (set_notification_active false) ui)
  | None => ui
  end.

(** [closeAllEnhancedPopups]: every attached overlay loses [active] now and
    is removed by a timer 300 ms later. *)
Definition closeAllEnhancedPopups (ui : Ui) : Ui :=
  let closing := attached_overlays ui in
  set_timers (timers ui ++ ((λ o, (300%nat, RemoveOverlay (node o))) <$> closing))
    (set_overlays
       ((λ o, if attached o then set_active false false o else o) <$> overlays ui) ui).

(** [document.body.appendChild(popupOverlay)] for a new overlay. *)
Definition appendOverlay (c : Content) (checked : bool) (ui : Ui) : Ui :=
  let n := fresh ui in
  set_overlays (overlays ui ++ [mkOverlay n c true false false checked "Save Changes" false])
    (set_fresh (S n) ui).

(** *** The popup functions *)

(** [showEnhancedProductPopup(productId)], up to [await fetch(...)]. *)
Definition showEnhancedProductPopup (productId : string) (ui : Ui) : Ui :=
  fetch (ProductPopupFetch productId) (showLoadingOverlay ui).

(** [showEnhancedProductPopup] from its [await] on.  [Some d]: the response
    was ok and its body renders; [None]: the fetch was rejected, the status
    was not ok, or the body was no JSON or made [createProductPopupHtml]
    throw; all of these end in the [catch]. *)
Definition showEnhancedProductPopup_settled (o : option PopupData) (ui : Ui) : Ui :=
  match o with
  | Some popupData =>
      let n := fresh ui in
      hideLoadingOverlay
        (setTimeout 10 (ActivateOverlay n)
           (appendOverlay (ProductPopup popupData) false ui))
  | None =>
      showNotification "Error" "Could not load product details. Please try again."
        (hideLoadingOverlay ui)
  end.

(** [showEnhancedImagePopup(imageId)], up to its [await]. *)
Definition showEnhancedImagePopup (imageId : string) (ui : Ui) : Ui :=
  fetch (ImagePopupFetch imageId) (showLoadingOverlay ui).

(** [showEnhancedImagePopup] from its [await] on. *)
Definition showEnhancedImagePopup_settled (o : option ImageData) (ui : Ui) : Ui :=
  match o with
  | Some popupData =>
      let n := fresh ui in
      hideLoadingOverlay
        (setTimeout 10 (ActivateOverlay n)
           (appendOverlay (ImagePopup popupData) (is_primary popupData) ui))
  | None =>
      showNotification "Error" "Could not load image details. Please try again."
        (hideLoadingOverlay ui)
  end.

(** One call of a [Promise.all]: [fetch(...).then(res => res.json())] is
    rejected (no response, or a body that is no JSON) or fulfilled with the
    parsed body, whatever the status of the response. *)
Inductive Call (A : Type) : Type :=
| Rejected
| Fulfilled (a : A).
Arguments Rejected {A}.
Arguments Fulfilled {A} a.

(** [showProductGalleryPopup(productId)], up to the [Promise.all]. *)
Definition showProductGalleryPopup (productId : string) (ui : Ui) : Ui :=
  fetch (GalleryFetch productId) (showLoadingOverlay ui).

(** The [.catch] of [showProductGalleryPopup]. *)
Definition gallery_failed (ui : Ui) : Ui :=
  showNotification "Failed to load product gallery. Please try again." "error"
    (hideLoadingOverlay ui).

(** The [.then] of [showProductGalleryPopup], run with both bodies.
    [productData] is [None] when [createProductPopupHtml(productData.popup_data)]
    throws, [galleryData] when [galleryData.images.length] does.  The gallery
    section is appended to the [.popup-content] of the product markup, and a
    [null] there throws as well.  [setupProductPopupEventListeners], called
    right after the overlay is attached, is defined nowhere in the sources:
    a ReferenceError, caught like the rest. *)
Definition gallery_loaded (productData : option PopupData)
    (galleryData : option (list GalleryImage)) (ui : Ui) : Ui :=
  match productData, galleryData with
  | Some d, Some images =>
      let popupContainer :=
        Element "div" ["enhanced-popup-container"] [createProductPopupHtml d] in
      match querySelector "popup-content" popupContainer with
      | Some _ => gallery_failed (appendOverlay (GalleryPopup d images) false ui)
      | None => gallery_failed ui
      end
  | _, _ => gallery_failed ui
  end.

(** [Promise.all([...]).then(...).catch(...)]: the [then] runs only when both
    calls are fulfilled. *)
Definition showProductGalleryPopup_settled (product : Call (option PopupData))
    (gallery : Call (option (list GalleryImage))) (ui : Ui) : Ui :=
  match product, gallery with
  | Fulfilled productData, Fulfilled galleryData => gallery_loaded productData galleryData ui
  | _, _ => gallery_failed ui
  end.

(** [savePopupChanges(popupOverlay, productId)], up to [await fetch(...)].
    The save button is left as it is. *)
Definition savePopupChanges (productId : string) (ui : Ui) : Ui :=
  fetch (SaveProductFetch productId) (showLoadingOverlay ui).

(** [savePopupChanges] from its [await] on; [ok]: the response was ok and
    its body JSON. *)
Definition savePopupChanges_settled (productId : string) (ok : bool) (ui : Ui) : Ui :=
  if ok then
    setTimeout 500 (RefreshCard productId)
      (closeAllEnhancedPopups
         (showNotification "Success" "Changes saved successfully"
            (hideLoadingOverlay ui)))
  else
    showNotification "Error" "Could not save changes. Please try again."
      (hideLoadingOverlay ui).

(** [saveImageChanges(popupOverlay, productId, imageId)], up to
    [await fetch(...)]: the save button of the overlay is relabelled and
    disabled. *)
Definition saveImageChanges (overlay : nat) (productId imageId : string) (ui : Ui) : Ui :=
  fetch (SaveImageFetch overlay productId imageId)
    (update_overlay overlay (set_save "Saving..." true) (showLoadingOverlay ui)).

(** [saveImageChanges] from its [await] on.  [Some b]: the response was ok
    and its body an object, [b] is the truthiness of its [images_updated];
    [None]: the fetch was rejected, the status was not ok, or the body was
    no JSON.  The
    [finally] block names [saveButton], a [const] of the [try] block that is
    out of scope there: it throws a ReferenceError before it resets the
    button, which stays disabled. *)
Definition saveImageChanges_settled (overlay : nat) (imageId : string)
    (o : option bool) (ui : Ui) : Ui :=
  match o with
  | Some images_updated =>
      let ui' :=
        showNotification "Image updated successfully!" "success" (hideLoadingOverlay ui) in
      match element overlay ui' with
      | Some popupOverlay =>
          if primary_checked popupOverlay && images_updated
          then showEnhancedImagePopup imageId (closeAllEnhancedPopups ui')
          else ui'
      | None => ui'
      end
  | None =>
      showNotification "Failed to update image. Please try again." "error"
        (hideLoadingOverlay ui)
  end.

(** The callback [savePopupChanges] leaves with [setTimeout(..., 500)]. *)
Definition refreshCard (productId : string) (ui : Ui) : Ui :=
  if decide (productId ∈ cards ui) then fetch (CardFetch productId) ui else ui.

(** *** Events *)

Definition run_task (t : Task) (ui : Ui) : Ui :=
  match t with
  | ActivateOverlay n =>
      update_overlay n
        (λ o, set_active true
                (match content o with ProductPopup _ => true | _ => content_active o end) o)
        ui
  | RemoveOverlay n => update_overlay n (set_attached false) ui
  | ActivateLoading n =>
      match loading ui with
      | Some (m, _) => if decide (m = n) then set_loading (Some (n, true)) ui else ui
      | None => ui
      end
  | RemoveLoading n =>
      match loading ui with
      | Some (m, _) => if decide (m = n) then set_loading None ui else ui
      | None => ui
      end
  | ActivateNotification n => update_notification n (set_notification_active true) ui
  | CloseNotification n => closeNotification n ui
  | RemoveNotification n =>
      set_notifications (filter (λ x, notification_node x ≠ n) (notifications ui)) ui
  | RefreshCard productId => refreshCard productId ui
  end.

Inductive Event : Type :=
| ClickProductImage (productId : string)
| ClickBackdrop
| KeyEscape
| ClickClose (overlay : nat)
| ClickCancel (overlay : nat)
| ClickSave (overlay : nat)
| ClickViewAll (overlay : nat)
| ClickBack (overlay : nat)
| TogglePrimary (overlay : nat)
| ClickNotificationClose (n : nat)
| CallShowEnhancedImagePopup (imageId : string)
| ProductPopupSettles (i : nat) (o : option PopupData)
| ImagePopupSettles (i : nat) (o : option ImageData)
| GallerySettles (i : nat) (product : Call (option PopupData))
    (gallery : Call (option (list GalleryImage)))
| SaveProductSettles (i : nat) (ok : bool)
| SaveImageSettles (i : nat) (o : option bool)
| CardSettles (i : nat)
| TimerFires (i : nat).

(** The request in flight at position [i] is answered: it leaves the list,
    and the code waiting for it goes on. *)
Definition settle (i : nat) (k : Fetch → option (Ui → Ui)) (ui : Ui) : Ui :=
  match pending ui !! i with
  | Some f =>
      match k f with
      | Some continue => continue (set_pending (delete i (pending ui)) ui)
      | None => ui
      end
  | None => ui
  end.

(** The listeners: those of [initializeEnhancedPopups] on the cards and the
    document (a card whose [data-product-id] is empty gets none), those of
    [setupPopupEventListeners] and [setupImagePopupEventListeners] on the
    buttons of an attached overlay (a disabled button gets no click), and
    the callbacks of requests and timers. *)
Definition step (e : Event) (ui : Ui) : Ui :=
  match e with
  | ClickProductImage productId =>
      if String.eqb productId "" then ui
      else if decide (productId ∈ cards ui) then showEnhancedProductPopup productId ui
      else ui
  | ClickBackdrop =>
      match attached_overlays ui with
      | [] => ui
      | _ => closeAllEnhancedPopups ui
      end
  | KeyEscape => closeAllEnhancedPopups ui
  | ClickClose n =>
      match content <$> overlay_at n ui with
      | Some (ProductPopup _) => closeAllEnhancedPopups ui
      | Some (ImagePopup _) => update_overlay n (set_attached false) ui
      | _ => ui
      end
  | ClickCancel n =>
      match content <$> overlay_at n ui with
      | Some (ProductPopup _) => closeAllEnhancedPopups ui
      | _ => ui
      end
  | ClickSave n =>
      match overlay_at n ui with
      | Some o =>
          match content o with
          | ProductPopup d =>
              if String.eqb (product_id d) "" then ui
              else savePopupChanges (product_id d) ui
          | ImagePopup d =>
              if save_disabled o then ui
              else saveImageChanges n (image_product_id d) (image_id d) ui
          | GalleryPopup _ _ => ui
          end
      | None => ui
      end
  | ClickViewAll n =>
      match content <$> overlay_at n ui with
      | Some (ProductPopup d) =>
          if String.eqb (product_id d) "" then ui
          else showProductGalleryPopup (product_id d) (closeAllEnhancedPopups ui)
      | _ => ui
      end
  | ClickBack n =>
      match content <$> overlay_at n ui with
      | Some (ImagePopup d) =>
          showProductGalleryPopup (image_product_id d)
            (update_overlay n (set_attached false) ui)
      | _ => ui
      end
  | TogglePrimary n =>
      match content <$> overlay_at n ui with
      | Some (ImagePopup _) =>
          update_overlay n (λ o, set_primary_checked (negb (primary_checked o)) o) ui
      | _ => ui
      end
  | ClickNotificationClose n => closeNotification n ui
  | CallShowEnhancedImagePopup imageId => showEnhancedImagePopup imageId ui
  | ProductPopupSettles i o =>
      settle i (λ f, match f with
                     | ProductPopupFetch _ => Some (showEnhancedProductPopup_settled o)
                     | _ => None
                     end) ui
  | ImagePopupSettles i o =>
      settle i (λ f, match f with
                     | ImagePopupFetch _ => Some (showEnhancedImagePopup_settled o)
                     | _ => None
                     end) ui
  | GallerySettles i product gallery =>
      settle i (λ f, match f with
                     | GalleryFetch _ => Some (showProductGalleryPopup_settled product gallery)
                     | _ => None
                     end) ui
  | SaveProductSettles i ok =>
      settle i (λ f, match f with
                     | SaveProductFetch productId => Some (savePopupChanges_settled productId ok)
                     | _ => None
                     end) ui
  | SaveImageSettles i o =>
      settle i (λ f, match f with
                     | SaveImageFetch n _ imageId => Some (saveImageChanges_settled n imageId o)
                     | _ => None
                     end) ui
  | CardSettles i =>
      settle i (λ f, match f with CardFetch _ => Some (λ ui', ui') | _ => None end) ui
  | TimerFires i =>
      match timers ui !! i with
      | Some (_, t) => run_task t (set_timers (delete i (timers ui)) ui)
      | None => ui
      end
  end.

Definition run (es : list Event) (ui : Ui) : Ui := foldl (λ u e, step e u) ui es.


(** The requests in flight that change the server's data. *)
Definition mutating (f : Fetch) : bool :=
  match f with
  | SaveProductFetch _ | SaveImageFetch _ _ _ => true
  | _ => false
  end.

(** *** Scenarios *)

(** Two popup responses, and a page with the two product cards. *)
Definition lamp : PopupData :=
  mkPopupData "product-1" "Product: Lamp" "/images/lamp.jpg" "A lamp" [] "1".

Definition desk : PopupData :=
  mkPopupData "product-2" "Product: Desk" "/images/desk.jpg" "A desk"
    ["/images/desk-side.jpg"] "2".

Definition page : Ui := init ["1"; "2"].

(** The product popup of card 1 is opened; the image of card 2 is clicked,
    and while that request is in flight "View All Images" is clicked in the
    popup, which closes it and asks for the gallery.  The timers fire in the
    order of their delays. *)
Definition view_all_while_loading : list Event :=
  [ ClickProductImage "1";
    TimerFires 0;
    ProductPopupSettles 0 (Some lamp);
    TimerFires 0;
    TimerFires 0;
    ClickProductImage "2";
    TimerFires 0;
    ClickViewAll 1;
    TimerFires 1;
    TimerFires 0 ].

(** The images of card 1 and card 2 are clicked one after the other, and
    both requests are answered. *)
Definition two_clicks : list Event :=
  [ ClickProductImage "1";
    ClickProductImage "2";
    TimerFires 0;
    TimerFires 0;
    ProductPopupSettles 0 (Some lamp);
    TimerFires 0;
    ProductPopupSettles 0 (Some desk);
    TimerFires 1 ].

(** The product popup of card 1 is opened and "Save Changes" is triggered
    twice before any answer. *)
Definition double_save : list Event :=
  [ ClickProductImage "1";
    TimerFires 0;
    ProductPopupSettles 0 (Some lamp);
    TimerFires 0;
    TimerFires 0;
    ClickSave 1;
    ClickSave 1 ].

(** An image popup response, and the events that open the popup, save it
    and bring the answer. *)
Definition front_view : ImageData :=
  mkImageData "7" "1" "Lamp" "/images/lamp-front.jpg" "front view" "detail" false.

Definition save_image : list Event :=
  [ CallShowEnhancedImagePopup "7";
    TimerFires 0;
    ImagePopupSettles 0 (Some front_view);
    TimerFires 0;
    TimerFires 0;
    ClickSave 1;
    TimerFires 0;
    SaveImageSettles 0 (Some false) ].

End EnhancedPopup.

(** ** The product router, continued *)

Module ProductStore.

Import ProductRoutes.

(** The answer of a successful delete. *)
Definition deleted : Response := Json 200 (PMessage "Product deleted successfully").

(** A product the grid can display: its image and thumbnail are truthy. *)
Definition displayable (p : Product) : Prop :=
  truthy (imageUrl p) = true ∧ truthy (thumbnailUrl p) = true.

(** The id [router.post] gives the next product. *)
Definition next_id (products : list Product) : Z := Z.of_nat (length products) + 1.

(** A route parameter that names no product ever: [NaN], zero or negative. *)
Definition never_an_id (param : option Z) : Prop :=
  match param with
  | None => True
  | Some n => n ≤ 0
  end.

End ProductStore.

(** ** popup.js and enhanced_popup.js, continued *)

Module PopupLife.

Import EnhancedPopup.

(** A text that stays a text when the script writes it into markup between
    tags or between double quotes: it holds neither [<] (code 60) nor a
    double quote (code 34). *)
Fixpoint plain (s : string) : bool :=
  match s with
  | EmptyString => true
  | String c s' =>
      negb (Ascii.eqb c (Ascii.ascii_of_nat 60)) && negb (Ascii.eqb c (Ascii.ascii_of_nat 34))
      && plain s'
  end.

(** A popup response all of whose fields that [createProductPopupHtml]
    writes into the markup are plain. *)
Definition text_only (d : PopupData) : Prop :=
  Forall (λ s, plain s = true)
    ([popup_id d; title d; image_url d; description d; product_id d]
       ++ additional_images d).

(** An overlay element later on: the same node and content, and a save
    button that is disabled if it was. *)
Definition keeps (o o' : Overlay) : Prop :=
  node o' = node o ∧ content o' = content o ∧
  (save_disabled o = true → save_disabled o' = true).

(** The overlay elements later on: the old ones in their places, possibly
    followed by new ones. *)
Definition extends (l l' : list Overlay) : Prop :=
  ∃ l1 l2, l' = l1 ++ l2 ∧ Forall2 keeps l l1.

(** The requests whose code shows the loading overlay while it waits; the
    refresh of a card does not. *)
Definition loads (f : Fetch) : bool :=
  match f with
  | CardFetch _ => false
  | _ => true
  end.

(** The events that bring the answer to a request. *)
Definition settles (e : Event) : bool :=
  match e with
  | ProductPopupSettles _ _ | ImagePopupSettles _ _ | GallerySettles _ _ _
  | SaveProductSettles _ _ | SaveImageSettles _ _ | CardSettles _ => true
  | _ => false
  end.

(** While the loading overlay is in the document, a request that shows it is
    in flight or the timer that removes it is pending. *)
Definition loading_accounted (ui : Ui) : Prop :=
  ∀ n b, loading ui = Some (n, b) →
    (∃ f, f ∈ pending ui ∧ loads f = true) ∨ (300%nat, RemoveLoading n) ∈ timers ui.

(** The events that open the image popup of image 7 of product 1. *)
Definition open_image_popup : list Event :=
  [ CallShowEnhancedImagePopup "7";
    TimerFires 0;
    ImagePopupSettles 0 (Some front_view);
    TimerFires 0;
    TimerFires 0 ].

End PopupLife.


(** * Properties *)

(** ** JavaScript values *)

Module JsFacts.

Lemma js_or_truthy a b : truthy a = true → js_or a b = a.
Proof. unfold js_or. by intros ->. Qed.

Lemma js_or_falsy a b : truthy a = false → js_or a b = b.
Proof. unfold js_or. by intros ->. Qed.

Lemma prop_absent (o : gmap string JsVal) k : o !! k = None → prop o k = JUndefined.
Proof. unfold prop. by intros ->. Qed.

Lemma prop_present (o : gmap string JsVal) k v : o !! k = Some v → prop o k = v.
Proof. unfold prop. by intros ->. Qed.

(** A truthy value is not the empty string, and not the number zero. *)
Lemma truthy_not_empty v : truthy v = true → v ≠ JStr "".
Proof. intros Ht ->. discriminate Ht. Qed.

Lemma truthy_not_zero v : truthy v = true → v ≠ JNum 0%float.
Proof. intros Ht ->. discriminate Ht. Qed.

End JsFacts.

(** ** The product router *)

Module ProductRoutesSpec.

Import ProductRoutes JsFacts.

Lemma find_has_id param (products : list Product) k p :
  list_find (has_id param) products = Some (k, p) →
  products !! k = Some p ∧ has_id param p.
Proof. intros H. apply list_find_Some in H as (Hk & Hp & _). done. Qed.

Lemma find_absent param (products : list Product) :
  list_find (has_id param) products = None ↔ absent param products.
Proof. apply list_find_None. Qed.

Lemma merge_field f old body :
  field f (merge old body) = js_or (prop body (key f)) (field f old).
Proof. by destruct f. Qed.

Lemma put_found param body (products : list Product) k old :
  list_find (has_id param) products = Some (k, old) →
  put param body products =
    (<[k := merge old body]> products, Json 200 (PProduct (merge old body))).
Proof. unfold put. by intros ->. Qed.

Lemma absent_put param param' body products :
  absent param products → absent param (put param' body products).1.
Proof.
  intros Habs. unfold put.
  destruct (list_find (has_id param') products) as [[k old]|] eqn:Hfind; simpl; [|done].
  apply find_has_id in Hfind as [Hk _].
  apply Forall_insert; [done|].
  unfold has_id. simpl.
  eapply (Forall_lookup_1 _ _ _ _ Habs Hk).
Qed.

Lemma absent_delete_other param param' products :
  absent param products → absent param (delete param' products).1.
Proof.
  intros Habs. unfold delete.
  destruct (list_find (has_id param') products) as [found|]; simpl; [|done].
  unfold absent in *. rewrite Forall_forall in Habs. apply Forall_forall.
  intros p Hp. apply list_elem_of_filter in Hp as [_ Hp]. by apply Habs.
Qed.

Lemma absent_after_delete param products : absent param (delete param products).1.
Proof.
  unfold delete.
  destruct (list_find (has_id param) products) as [found|] eqn:Hfind; simpl.
  - apply Forall_forall. intros p Hp. by apply list_elem_of_filter in Hp as [Hp _].
  - by apply find_absent.
Qed.

Lemma absent_handle param r products :
  is_post r = false → absent param products → absent param (handle r products).1.
Proof.
  destruct r; simpl; try done; intros _ Habs.
  - by apply absent_put.
  - by apply absent_delete_other.
Qed.

Lemma absent_serve param rs products :
  Forall (λ r, is_post r = false) rs →
  absent param products → absent param (serve rs products).
Proof.
  unfold serve. intros Hrs. revert products.
  induction Hrs as [|r rs Hr _ IH]; intros products Habs; simpl; [done|].
  apply IH. by apply absent_handle.
Qed.

Lemma get_absent param products : absent param products → get_by_id param products = not_found.
Proof. intros H. apply find_absent in H. unfold get_by_id. by rewrite H. Qed.

Lemma delete_absent param products :
  absent param products → delete param products = (products, not_found).
Proof. intros H. apply find_absent in H. unfold delete. by rewrite H. Qed.

(** *** Update *)

(** C1, as the router has it.  For a product id present in the store,
    update answers 200 with the merged product and stores it in place of the
    old one: the id is unchanged, a field takes the request's value when that
    value is truthy, and keeps its prior value when the request's value is
    omitted or falsy.  An update that provides price 0 therefore leaves the
    price at its prior value. *)
Theorem put_merges_truthy_fields (products : list Product) i body k old :
  list_find (has_id (Some i)) products = Some (k, old) →
  ∃ updated,
    put (Some i) body products = (<[k := updated]> products, Json 200 (PProduct updated)) ∧
    id updated = i ∧
    (∀ f, truthy (prop body (key f)) = true → field f updated = prop body (key f)) ∧
    (∀ f, truthy (prop body (key f)) = false → field f updated = field f old) ∧
    (∀ f, body !! key f = None → field f updated = field f old) ∧
    (body !! "price" = Some (JNum 0%float) → price updated = price old).
Proof.
  intros Hfind. exists (merge old body).
  split; [by apply put_found|].
  split; [apply find_has_id in Hfind as [_ Hid]; by injection Hid|].
  split; [|split; [|split]].
  - intros f Ht. by rewrite merge_field, js_or_truthy.
  - intros f Hf. by rewrite merge_field, js_or_falsy.
  - intros f Hf. by rewrite merge_field, (prop_absent _ _ Hf).
  - intros Hprice. simpl. by rewrite (prop_present _ _ _ Hprice).
Qed.

Lemma put_merges_truthy_fields_witness :
  ∃ updated,
    put (Some 2) {[ "price" := JNum 0%float; "name" := JStr "Gadget" ]} initial_products
      = (<[1%nat := updated]> initial_products, Json 200 (PProduct updated)) ∧
    id updated = 2 ∧
    name updated = JStr "Gadget" ∧
    price updated = JNum 29.99%float.
Proof.
  destruct (put_merges_truthy_fields initial_products 2
              {[ "price" := JNum 0%float; "name" := JStr "Gadget" ]} 1
              (mkProduct 2 (JStr "Product 2") (JStr "This is product 2") (JNum 29.99%float)
                 (JStr "/images/product2.jpg") (JStr "/images/thumbnails/product2.jpg")))
    as (updated & Hput & Hid & Htruthy & _ & _ & Hzero); [by vm_compute|].
  exists updated. split; [done|]. split; [done|]. split.
  - apply (Htruthy FName). by vm_compute.
  - apply Hzero. by vm_compute.
Defined.

(** C1 fails on the router: on the initial store, update(1, {price: 0})
    answers with product 1 at its old price 19.99, not 0, and leaves the
    store as it was. *)
Lemma put_zero_price_reverts :
  ∃ updated,
    put (Some 1) {[ "price" := JNum 0%float ]} initial_products
      = (initial_products, Json 200 (PProduct updated)) ∧
    price updated = JNum 19.99%float ∧
    price updated ≠ JNum 0%float.
Proof.
  eexists. split; [by vm_compute|]. split; [done|].
  simpl. by apply truthy_not_zero.
Qed.

(** C10.  For a product id present in the store and any of the text fields
    (indeed any field), an update that provides the empty string leaves the
    field at its prior value, as an update that omits the field does; and
    whatever the request, a field that was not the empty string is not the
    empty string afterwards. *)
Theorem put_never_clears_field (products : list Product) i body k old f :
  list_find (has_id (Some i)) products = Some (k, old) →
  ∃ updated,
    put (Some i) body products = (<[k := updated]> products, Json 200 (PProduct updated)) ∧
    (body !! key f = Some (JStr "") → field f updated = field f old) ∧
    (body !! key f = None → field f updated = field f old) ∧
    (field f old ≠ JStr "" → field f updated ≠ JStr "").
Proof.
  intros Hfind. exists (merge old body).
  split; [by apply put_found|]. rewrite merge_field.
  split; [|split].
  - intros Hb. by rewrite (prop_present _ _ _ Hb).
  - intros Hb. by rewrite (prop_absent _ _ Hb).
  - intros Hold. unfold js_or.
    destruct (truthy (prop body (key f))) eqn:Ht; [by apply truthy_not_empty|done].
Qed.

Lemma put_never_clears_field_witness :
  ∃ updated,
    put (Some 3) {[ "name" := JStr ""; "description" := JStr "" ]} initial_products
      = (<[2%nat := updated]> initial_products, Json 200 (PProduct updated)) ∧
    name updated = JStr "Product 3" ∧
    imageUrl updated = JStr "/images/product3.jpg" ∧
    description updated ≠ JStr "".
Proof.
  pose (body := ({[ "name" := JStr ""; "description" := JStr "" ]} : gmap string JsVal)).
  pose (old := mkProduct 3 (JStr "Product 3") (JStr "This is product 3") (JNum 39.99%float)
                 (JStr "/images/product3.jpg") (JStr "/images/thumbnails/product3.jpg")).
  assert (Hfind : list_find (has_id (Some 3)) initial_products = Some (2%nat, old))
    by (by vm_compute).
  destruct (put_never_clears_field initial_products 3 body 2 old FName Hfind)
    as (updated & Hput & Hname & _ & _).
  exists updated. split; [done|]. split; [apply Hname; by vm_compute|].
  destruct (put_never_clears_field initial_products 3 body 2 old FImageUrl Hfind)
    as (updated1 & Hput1 & _ & Himg & _).
  destruct (put_never_clears_field initial_products 3 body 2 old FDescription Hfind)
    as (updated2 & Hput2 & _ & _ & Hdesc).
  assert (updated1 = updated) as -> by congruence.
  assert (updated2 = updated) as -> by congruence.
  split; [apply Himg; by vm_compute|].
  apply Hdesc. discriminate.
Defined.

(** The scenario of the specification: an update with a new, truthy price
    changes the price and nothing else. *)
Example put_new_price :
  let body : gmap string JsVal := {[ "price" := JNum 24.99%float ]} in
  get_by_id (Some 2) (put (Some 2) body initial_products).1
  = Json 200
      (PProduct
         (mkProduct 2 (JStr "Product 2") (JStr "This is product 2") (JNum 24.99%float)
            (JStr "/images/product2.jpg") (JStr "/images/thumbnails/product2.jpg"))).
Proof. by vm_compute. Qed.

(** *** Create *)

(** C2, as the router has it.  Create validates nothing and never fails:
    whatever the body, it answers 201 with the new product and appends exactly
    that product to the store.  The product's id is the length of the store
    plus one; name, description and price are the body's values as they came
    (undefined when missing); image and thumbnail fall back to the
    placeholders when the body's value is falsy. *)
Theorem post_always_creates (body : gmap string JsVal) (products : list Product) :
  ∃ created,
    post body products = (products ++ [created], Json 201 (PProduct created)) ∧
    id created = Z.of_nat (length products) + 1 ∧
    name created = prop body "name" ∧
    description created = prop body "description" ∧
    price created = prop body "price" ∧
    imageUrl created = js_or (prop body "imageUrl") (JStr "/images/placeholder.jpg") ∧
    thumbnailUrl created =
      js_or (prop body "thumbnailUrl") (JStr "/images/thumbnails/placeholder.jpg").
Proof. eexists. split; [reflexivity|]. by repeat split. Qed.

(** C2 fails on the router: a create with an empty body is answered 201, and
    a product without name, description or price joins the store; so does one
    with a negative price. *)
Lemma post_accepts_invalid_bodies :
  post ∅ initial_products
    = (initial_products ++
         [mkProduct 4 JUndefined JUndefined JUndefined
            (JStr "/images/placeholder.jpg") (JStr "/images/thumbnails/placeholder.jpg")],
       Json 201
         (PProduct
            (mkProduct 4 JUndefined JUndefined JUndefined
               (JStr "/images/placeholder.jpg")
               (JStr "/images/thumbnails/placeholder.jpg")))) ∧
  (post {[ "name" := JStr "Widget"; "description" := JStr "A widget";
           "price" := JNum (-5)%float ]} initial_products).2
    = Json 201
        (PProduct
           (mkProduct 4 (JStr "Widget") (JStr "A widget") (JNum (-5)%float)
              (JStr "/images/placeholder.jpg")
              (JStr "/images/thumbnails/placeholder.jpg"))).
Proof. split; by vm_compute. Qed.

(** *** Ids *)

Lemma numbered_initial : numbered initial_products.
Proof. reflexivity. Qed.

Lemma numbered_handle r products :
  is_delete r = false → numbered products → numbered (handle r products).1.
Proof.
  unfold numbered. destruct r as [|param|body|param body|param]; simpl; try done; intros _ Hn.
  - rewrite fmap_app, length_app, Hn. simpl.
    rewrite Nat.add_1_r, seq_S, fmap_app. done.
  - unfold put.
    destruct (list_find (has_id param) products) as [[k old]|] eqn:Hfind; simpl; [|done].
    apply find_has_id in Hfind as [Hk _].
    rewrite length_insert, list_fmap_insert. simpl.
    rewrite list_insert_id; [done|]. by rewrite list_lookup_fmap, Hk.
Qed.

(** As long as nothing is deleted, the ids of the store are pairwise
    distinct. *)
Lemma ids_distinct_without_delete rs :
  Forall (λ r, is_delete r = false) rs →
  NoDup (id <$> serve rs initial_products).
Proof.
  intros Hrs.
  assert (Hn : numbered (serve rs initial_products)).
  { unfold serve. generalize numbered_initial. generalize initial_products.
    induction Hrs as [|r rs Hr _ IH]; intros products Hp; simpl; [done|].
    apply IH. by apply numbered_handle. }
  rewrite Hn. apply NoDup_fmap_2; [|apply NoDup_seq].
  intros m n. lia.
Qed.

(** C3 fails on the router.  After DELETE /1 on the initial store, a create
    is given id 3, the id of the live product 3: two live products share an
    id.  After DELETE /3, a create is given id 3 again, the id of the product
    just deleted. *)
Theorem post_after_delete_reuses_id :
  let body : gmap string JsVal :=
    {[ "name" := JStr "Widget"; "description" := JStr "A widget";
       "price" := JNum 19.99%float ]} in
  let product3 := mkProduct 3 (JStr "Product 3") (JStr "This is product 3")
                    (JNum 39.99%float) (JStr "/images/product3.jpg")
                    (JStr "/images/thumbnails/product3.jpg") in
  let widget := mkProduct 3 (JStr "Widget") (JStr "A widget") (JNum 19.99%float)
                  (JStr "/images/placeholder.jpg")
                  (JStr "/images/thumbnails/placeholder.jpg") in
  (serve [Delete (Some 1); Post body] initial_products
     = [ mkProduct 2 (JStr "Product 2") (JStr "This is product 2") (JNum 29.99%float)
           (JStr "/images/product2.jpg") (JStr "/images/thumbnails/product2.jpg");
         product3; widget ] ∧
   ¬ NoDup (id <$> serve [Delete (Some 1); Post body] initial_products) ∧
   get_by_id (Some 3) (serve [Delete (Some 1); Post body] initial_products)
     = Json 200 (PProduct product3)) ∧
  (product3 ∈ initial_products ∧
   (product3 ∉ serve [Delete (Some 3)] initial_products) ∧
   (post body (serve [Delete (Some 3)] initial_products)).2 = Json 201 (PProduct widget)).
Proof.
  intros body product3 widget. split; [split; [by vm_compute|split]|split; [|split]].
  - intros Hnd.
    assert (Hids : id <$> serve [Delete (Some 1); Post body] initial_products = [2; 3; 3])
      by (by vm_compute).
    rewrite Hids in Hnd. apply NoDup_cons in Hnd as [_ Hnd].
    apply NoDup_cons in Hnd as [Hnd _]. apply Hnd. by left.
  - by vm_compute.
  - do 2 right. left.
  - assert (Hs : serve [Delete (Some 3)] initial_products
                 = [ mkProduct 1 (JStr "Product 1") (JStr "This is product 1")
                       (JNum 19.99%float) (JStr "/images/product1.jpg")
                       (JStr "/images/thumbnails/product1.jpg");
                     mkProduct 2 (JStr "Product 2") (JStr "This is product 2")
                       (JNum 29.99%float) (JStr "/images/product2.jpg")
                       (JStr "/images/thumbnails/product2.jpg") ])
      by (by vm_compute).
    rewrite Hs. intros Hin.
    apply list_elem_of_In in Hin. simpl in Hin.
    destruct Hin as [Heq|[Heq|[]]]; by apply (f_equal id) in Heq.
  - by vm_compute.
Qed.

(** *** Read and delete of an absent id *)

(** For an id that no product of the store carries, read answers 404 and
    delete answers 404 and leaves the store as it is.  After a delete,
    successful or not, no product carries the id; it stays so through any
    later reads, updates and deletes, as long as nothing is created, and a
    read or delete of the id after them answers 404 again. *)
Theorem delete_not_idempotent (products : list Product) param :
  (absent param products →
   get_by_id param products = not_found ∧
   delete param products = (products, not_found)) ∧
  (∀ rs, Forall (λ r, is_post r = false) rs →
     let later := serve rs (delete param products).1 in
     absent param later ∧
     get_by_id param later = not_found ∧
     delete param later = (later, not_found)).
Proof.
  split.
  - intros Habs. split; [by apply get_absent|by apply delete_absent].
  - intros rs Hrs later.
    assert (Habs : absent param later)
      by (by apply absent_serve, absent_after_delete).
    split; [done|]. split; [by apply get_absent|by apply delete_absent].
Qed.

Lemma delete_not_idempotent_witness :
  (get_by_id (Some 7) initial_products = not_found ∧
   delete (Some 7) initial_products = (initial_products, not_found)) ∧
  (delete (Some 2) initial_products).2 = Json 200 (PMessage "Product deleted successfully") ∧
  delete (Some 2)
    (serve [Delete (Some 2); GetAll; Put (Some 1) ∅] (delete (Some 2) initial_products).1)
    = (serve [Delete (Some 2); GetAll; Put (Some 1) ∅] (delete (Some 2) initial_products).1,
       not_found).
Proof.
  split; [|split].
  - apply (delete_not_idempotent initial_products (Some 7)).
    unfold absent. repeat constructor; by vm_compute.
  - by vm_compute.
  - apply (delete_not_idempotent initial_products (Some 2)).
    repeat constructor.
Defined.

(** C7 fails on the router.  On the initial store DELETE /3 answers 200 and
    leaves no product with id 3: a second DELETE /3 right away answers 404.
    But a create, whatever its body, is then given id 3 again, the length of
    the store plus one, and the DELETE /3 that follows it answers 200 a
    second time and removes the product just created. *)
Theorem delete_again_after_create_answers_200 (body : gmap string JsVal) :
  let after_delete := (delete (Some 3) initial_products).1 in
  let created := post body after_delete in
  (delete (Some 3) initial_products).2
    = Json 200 (PMessage "Product deleted successfully") ∧
  absent (Some 3) after_delete ∧
  delete (Some 3) after_delete = (after_delete, not_found) ∧
  (∃ p, created = (after_delete ++ [p], Json 201 (PProduct p)) ∧ id p = 3) ∧
  delete (Some 3) created.1
    = (after_delete, Json 200 (PMessage "Product deleted successfully")) ∧
  serve [Delete (Some 3); Post body; Delete (Some 3)] initial_products = after_delete.
Proof.
  intros after_delete created.
  assert (Habs : absent (Some 3) after_delete) by apply absent_after_delete.
  assert (Hagain : delete (Some 3) created.1
                   = (after_delete, Json 200 (PMessage "Product deleted successfully")))
    by reflexivity.
  split; [by vm_compute|]. split; [done|].
  split; [by apply delete_absent|].
  split.
  - eexists. split; reflexivity.
  - split; [done|]. reflexivity.
Qed.

End ProductRoutesSpec.

(** ** The image store *)

Module ImageStoreSpec.

Import ImageStore.

Lemma filter_fmap {A B} (f : A → B) (P : B → Prop) `{!∀ y, Decision (P y)} (l : list A) :
  filter P (f <$> l) = f <$> filter (λ x, P (f x)) l.
Proof.
  induction l as [|x l IH]; [done|].
  rewrite fmap_cons, !filter_cons, IH. by destruct (decide (P (f x))).
Qed.

Lemma mark_primary_ids pid iid im :
  productId (mark_primary pid iid im) = productId im ∧
  imageId (mark_primary pid iid im) = imageId im.
Proof. unfold mark_primary. by destruct (decide (productId im = pid)). Qed.

Lemma mark_primary_is_primary pid iid im :
  productId (mark_primary pid iid im) = pid ∧ isPrimary (mark_primary pid iid im) = true
  ↔ is_image pid iid im.
Proof.
  unfold mark_primary, is_image.
  destruct (decide (productId im = pid)) as [Hp|Hp]; simpl.
  - rewrite bool_decide_eq_true. tauto.
  - tauto.
Qed.

Lemma mark_primary_other pid pid' iid im :
  pid' ≠ pid →
  productId (mark_primary pid iid im) = pid' ∧ isPrimary (mark_primary pid iid im) = true
  ↔ productId im = pid' ∧ isPrimary im = true.
Proof.
  intros Hne. unfold mark_primary.
  destruct (decide (productId im = pid)) as [Hp|Hp]; simpl; [|tauto].
  split; intros [Hp' _]; congruence.
Qed.

Lemma mark_primary_idemp pid iid im :
  mark_primary pid iid (mark_primary pid iid im) = mark_primary pid iid im.
Proof. unfold mark_primary. by destruct (decide (productId im = pid)); simpl; case_decide. Qed.

Lemma primary_images_app pid l1 l2 :
  primary_images pid (l1 ++ l2) = primary_images pid l1 ++ primary_images pid l2.
Proof. apply filter_app. Qed.

Lemma primary_images_clear pid ims : primary_images pid (clear_primary pid ims) = [].
Proof.
  apply elem_of_nil_inv. intros im Him.
  apply list_elem_of_filter in Him as [[Hp Hprim] Hin].
  apply list_elem_of_fmap in Hin as (im0 & -> & _).
  destruct (decide (productId im0 = pid)); simpl in *; congruence.
Qed.

Lemma primary_images_clear_other pid pid' ims :
  pid' ≠ pid → primary_images pid' (clear_primary pid ims) = primary_images pid' ims.
Proof.
  intros Hne. unfold primary_images, clear_primary. rewrite filter_fmap.
  rewrite <- (list_fmap_id (filter (λ im, productId im = pid' ∧ isPrimary im = true) ims)).
  induction ims as [|im ims IH]; [done|].
  rewrite !filter_cons.
  destruct (decide (productId im = pid)) as [Hp|Hp]; simpl.
  - rewrite !decide_False by (intros [Hp' _]; congruence). apply IH.
  - destruct (decide (productId im = pid' ∧ isPrimary im = true)); [|apply IH].
    rewrite !fmap_cons, IH. by rewrite decide_False by done.
Qed.

Lemma primary_images_mark pid iid ims :
  primary_images pid (mark_primary pid iid <$> ims)
  = mark_primary pid iid <$> filter (is_image pid iid) ims.
Proof.
  unfold primary_images. rewrite filter_fmap. f_equal.
  apply list_filter_iff. intros im. apply mark_primary_is_primary.
Qed.

Lemma primary_images_mark_other pid pid' iid ims :
  pid' ≠ pid →
  length (primary_images pid' (mark_primary pid iid <$> ims))
  = length (primary_images pid' ims).
Proof.
  intros Hne. unfold primary_images. rewrite filter_fmap, length_fmap. f_equal.
  apply list_filter_iff. intros im. by apply mark_primary_other.
Qed.

Lemma primary_images_filter pid (P : Image → Prop) `{!∀ im, Decision (P im)} ims :
  (length (primary_images pid (filter P ims)) ≤ length (primary_images pid ims))%nat.
Proof.
  unfold primary_images. rewrite list_filter_filter.
  rewrite <- (list_filter_filter_l (λ im, (productId im = pid ∧ isPrimary im = true) ∧ P im)
                (λ im, productId im = pid ∧ isPrimary im = true)) by tauto.
  apply length_filter.
Qed.

(** With distinct ids, at most one image is the image [iid] of [pid]. *)
Lemma is_image_unique pid iid ims :
  NoDup (imageId <$> ims) → (length (filter (is_image pid iid) ims) ≤ 1)%nat.
Proof.
  induction ims as [|im ims IH]; [simpl; lia|].
  rewrite fmap_cons, NoDup_cons. intros [Hnotin Hnd]. rewrite filter_cons.
  destruct (decide (is_image pid iid im)) as [[_ Hid]|]; [|by apply IH].
  assert (Hnil : filter (is_image pid iid) ims = []).
  { apply elem_of_nil_inv. intros im' Him'.
    apply list_elem_of_filter in Him' as [[_ Hid'] Hin].
    apply Hnotin. rewrite Hid, <- Hid'. by apply list_elem_of_fmap_2. }
  rewrite Hnil. simpl. lia.
Qed.

Lemma is_image_found pid iid ims found :
  list_find (is_image pid iid) ims = Some found →
  NoDup (imageId <$> ims) →
  ∃ im, filter (is_image pid iid) ims = [im] ∧ is_image pid iid im.
Proof.
  intros Hfind Hnd. destruct found as [k im].
  apply list_find_Some in Hfind as (Hk & Him & _).
  assert (Hin : im ∈ filter (is_image pid iid) ims).
  { apply list_elem_of_filter. split; [done|]. by eapply list_elem_of_lookup_2. }
  pose proof (is_image_unique pid iid ims Hnd) as Hlen.
  destruct (filter (is_image pid iid) ims) as [|im1 [|im2 rest]] eqn:Hf.
  - by apply elem_of_nil in Hin.
  - apply list_elem_of_singleton in Hin as ->. eauto.
  - simpl in Hlen. lia.
Qed.

Lemma clear_primary_ids pid (ims : list Image) : imageId <$> clear_primary pid ims = imageId <$> ims.
Proof.
  unfold clear_primary. rewrite <- list_fmap_compose. apply list_fmap_ext.
  intros _ im _. simpl. by destruct (decide (productId im = pid)).
Qed.

Lemma mark_primary_image_ids pid iid (ims : list Image) :
  imageId <$> (mark_primary pid iid <$> ims) = imageId <$> ims.
Proof.
  rewrite <- list_fmap_compose. apply list_fmap_ext.
  intros _ im _. simpl. apply mark_primary_ids.
Qed.

Lemma ids_below_fmap (f : Image → Image) n (ims : list Image) :
  imageId <$> (f <$> ims) = imageId <$> ims →
  Forall (λ im, imageId im < n) ims → Forall (λ im, imageId im < n) (f <$> ims).
Proof.
  intros Hids Hall.
  apply (Forall_fmap imageId (λ i, i < n)). rewrite Hids.
  by apply (Forall_fmap imageId (λ i, i < n)).
Qed.

Lemma ids_fresh_filter (P : Image → Prop) `{!∀ im, Decision (P im)} s ps :
  ids_fresh s →
  ids_fresh (mkStore ps (filter P (images s)) (nextProductId s) (nextImageId s)).
Proof.
  unfold ids_fresh. simpl. intros [Hnd Hall]. split.
  - eapply sublist_NoDup; [done|]. apply fmap_sublist, sublist_filter.
  - apply Forall_forall. intros im Him. apply list_elem_of_filter in Him as [_ Him].
    rewrite Forall_forall in Hall. by apply Hall.
Qed.

Lemma ids_fresh_reachable s : reachable s → ids_fresh s.
Proof.
  induction 1 as [|s _ IH|s pid u t alt ty b s' im _ IH Hop|s pid iid s' _ IH Hop
                 |s pid iid s' _ IH Hop|s pid s' _ IH Hop].
  - split; constructor.
  - done.
  - unfold uploadImage in Hop. destruct (decide (pid ∈ products s)); [|done].
    injection Hop as <- <-. destruct IH as [Hnd Hall].
    assert (Hids : imageId <$> (if b then clear_primary pid (images s) else images s)
                   = imageId <$> images s)
      by (destruct b; [apply clear_primary_ids|done]).
    unfold ids_fresh. simpl. rewrite fmap_app, Hids. simpl. split.
    + apply NoDup_app. split; [done|]. split; [|apply NoDup_singleton].
      intros i Hi Hi'. apply list_elem_of_singleton in Hi' as ->.
      apply list_elem_of_fmap in Hi as (im & Heq & Him).
      rewrite Forall_forall in Hall. specialize (Hall im Him). lia.
    + apply Forall_app. split.
      * apply (Forall_fmap imageId (λ i, i < nextImageId s + 1)). rewrite Hids.
        apply (Forall_fmap imageId (λ i, i < nextImageId s + 1)).
        eapply Forall_impl; [done|]. simpl. intros. lia.
      * apply Forall_singleton. simpl. lia.
  - unfold setPrimaryImage in Hop. destruct (decide (pid ∈ products s)); [|done].
    destruct (list_find (is_image pid iid) (images s)); [|done].
    injection Hop as <-. destruct IH as [Hnd Hall]. unfold ids_fresh. simpl. split.
    + by rewrite mark_primary_image_ids.
    + apply ids_below_fmap; [apply mark_primary_image_ids|done].
  - unfold deleteImage in Hop. destruct (decide (pid ∈ products s)); [|done].
    destruct (list_find (is_image pid iid) (images s)); [|done].
    injection Hop as <-. by apply ids_fresh_filter.
  - unfold deleteProduct in Hop. destruct (decide (pid ∈ products s)); [|done].
    injection Hop as <-. by apply ids_fresh_filter.
Qed.

Lemma primaries_reachable s pid : reachable s → (length (primaries pid s) ≤ 1)%nat.
Proof.
  intros Hreach. revert pid.
  induction Hreach as [|s _ IH|s pid0 u t alt ty b s' im Hreach IH Hop
                      |s pid0 iid s' Hreach IH Hop
                      |s pid0 iid s' _ IH Hop|s pid0 s' _ IH Hop]; intros pid.
  - simpl. lia.
  - apply IH.
  - unfold uploadImage in Hop. destruct (decide (pid0 ∈ products s)); [|done].
    injection Hop as <- <-. unfold primaries. simpl. rewrite primary_images_app, length_app.
    destruct b.
    + destruct (decide (pid = pid0)) as [->|Hne].
      * rewrite primary_images_clear. unfold primary_images.
        rewrite filter_cons. case_decide; simpl; lia.
      * rewrite primary_images_clear_other by done.
        specialize (IH pid). unfold primaries in IH.
        unfold primary_images at 2. rewrite filter_cons, decide_False; [simpl; lia|].
        simpl. intros [Hp _]. congruence.
    + specialize (IH pid). unfold primaries in IH.
      unfold primary_images at 2. rewrite filter_cons, decide_False; [simpl; lia|].
      simpl. intros [_ Hp]. congruence.
  - unfold setPrimaryImage in Hop. destruct (decide (pid0 ∈ products s)); [|done].
    destruct (list_find (is_image pid0 iid) (images s)); [|done].
    injection Hop as <-. unfold primaries. simpl.
    destruct (decide (pid = pid0)) as [->|Hne].
    + rewrite primary_images_mark, length_fmap. apply is_image_unique.
      by apply ids_fresh_reachable.
    + rewrite primary_images_mark_other by done. apply IH.
  - unfold deleteImage in Hop. destruct (decide (pid0 ∈ products s)); [|done].
    destruct (list_find (is_image pid0 iid) (images s)); [|done].
    injection Hop as <-. unfold primaries. simpl.
    etrans; [apply primary_images_filter|apply IH].
  - unfold deleteProduct in Hop. destruct (decide (pid0 ∈ products s)); [|done].
    injection Hop as <-. unfold primaries. simpl.
    etrans; [apply primary_images_filter|apply IH].
Qed.

(** C5.  In every state the image operations lead to, a product has at most
    one primary image.  A successful [setPrimaryImage(productId, imageId)]
    leaves exactly one primary image for the product, the image named, and a
    second call with the same ids succeeds and changes nothing.  A successful
    upload with [is_primary] set leaves exactly one primary image for the
    product, the one uploaded. *)
Theorem at_most_one_primary s :
  reachable s →
  (∀ pid, (length (primaries pid s) ≤ 1)%nat) ∧
  (∀ pid iid s', setPrimaryImage pid iid s = Ok s' →
     imageId <$> primaries pid s' = [iid] ∧
     setPrimaryImage pid iid s' = Ok s') ∧
  (∀ pid u t alt ty s' im, uploadImage pid u t alt ty true s = Ok (s', im) →
     primaries pid s' = [im] ∧ isPrimary im = true).
Proof.
  intros Hreach. split; [|split].
  - intros pid. by apply primaries_reachable.
  - intros pid iid s' Hop. unfold setPrimaryImage in Hop |- *.
    destruct (decide (pid ∈ products s)) as [Hpid|]; [|done].
    destruct (list_find (is_image pid iid) (images s)) as [found|] eqn:Hfind; [|done].
    injection Hop as <-. simpl.
    destruct (is_image_found pid iid (images s) found Hfind) as (im & Hf & Him);
      [by apply ids_fresh_reachable|].
    split.
    + unfold primaries. simpl. rewrite primary_images_mark, Hf. simpl.
      f_equal. destruct Him as [_ <-]. apply mark_primary_ids.
    + rewrite decide_True by done.
      rewrite list_find_fmap.
      rewrite (list_find_ext _ (is_image pid iid)), Hfind; simpl.
      * f_equal. f_equal. rewrite <- list_fmap_compose. apply list_fmap_ext.
        intros _ im' _. apply mark_primary_idemp.
      * intros im'. unfold is_image. simpl.
        by destruct (mark_primary_ids pid iid im') as [-> ->].
  - intros pid u t alt ty s' im Hop. unfold uploadImage in Hop.
    destruct (decide (pid ∈ products s)); [|done].
    injection Hop as <- <-. split; [|done]. unfold primaries. simpl.
    rewrite primary_images_app, primary_images_clear. simpl.
    unfold primary_images. by rewrite filter_cons, decide_True.
Qed.

Lemma at_most_one_primary_witness :
  let front := mkImage 1 1 "/img/front.jpg" "/img/front_t.jpg" "front" Main false in
  let back := mkImage 2 1 "/img/back.jpg" "/img/back_t.jpg" "back" Detail true in
  let s := mkStore [1] [front; back] 2 3 in
  reachable s ∧
  (length (primaries 1 s) ≤ 1)%nat ∧
  setPrimaryImage 1 1 s = Ok (mkStore [1] [set_primary true front; set_primary false back] 2 3) ∧
  imageId <$> primaries 1 (mkStore [1] [set_primary true front; set_primary false back] 2 3)
    = [1] ∧
  setPrimaryImage 1 1 (mkStore [1] [set_primary true front; set_primary false back] 2 3)
    = Ok (mkStore [1] [set_primary true front; set_primary false back] 2 3).
Proof.
  intros front back s.
  assert (Hreach : reachable s).
  { apply (reach_uploadImage
             (mkStore [1] [set_primary true front] 2 2) 1
             "/img/back.jpg" "/img/back_t.jpg" "back" Detail true s back);
      [|by vm_compute].
    apply (reach_uploadImage (createProduct empty).1 1
             "/img/front.jpg" "/img/front_t.jpg" "front" Main true
             (mkStore [1] [set_primary true front] 2 2) (set_primary true front));
      [|by vm_compute].
    apply reach_createProduct, reach_empty. }
  destruct (at_most_one_primary s Hreach) as (Hmost & Hset & _).
  assert (Hop : setPrimaryImage 1 1 s
                = Ok (mkStore [1] [set_primary true front; set_primary false back] 2 3))
    by (by vm_compute).
  destruct (Hset 1 1 _ Hop) as [Hone Hagain].
  split; [done|]. split; [apply Hmost|]. split; [done|]. split; [exact Hone|exact Hagain].
Defined.

End ImageStoreSpec.

(** ** popup.js *)

Module PopupOnClickSpec.

Import PopupOnClick.

Lemma no_active (cards : Cards) :
  (∀ i, cards !! i ≠ Some (Some true)) → active_popups cards = [].
Proof.
  intros Hnone. apply elem_of_nil_inv. intros popup Hin.
  apply list_elem_of_filter in Hin as [-> Hin].
  apply list_elem_of_lookup in Hin as [i Hi]. by apply (Hnone i).
Qed.

(** If every popup but the one of [card] is inactive, at most one is
    active. *)
Lemma one_active (cards : Cards) card :
  (∀ i, i ≠ card → cards !! i ≠ Some (Some true)) →
  (length (active_popups cards) ≤ 1)%nat.
Proof.
  revert card. induction cards as [|popup cards IH]; intros card Hothers; [simpl; lia|].
  unfold active_popups. rewrite filter_cons. destruct card as [|card].
  - fold (active_popups cards). rewrite no_active.
    + case_decide; simpl; lia.
    + intros i. apply (Hothers (S i)). lia.
  - rewrite decide_False.
    + apply (IH card). intros i Hi. apply (Hothers (S i)). lia.
    + intros ->. by apply (Hothers 0%nat).
Qed.

Lemma deactivate_inactive popup : deactivate popup ≠ Some true.
Proof. by destruct popup. Qed.

Lemma on_click_one_active t (cards : Cards) :
  (length (active_popups cards) ≤ 1)%nat →
  (length (active_popups (on_click t cards)) ≤ 1)%nat.
Proof.
  intros Hone. destruct t as [card|card|]; simpl; [|done|].
  - destruct (cards !! card) as [[active|]|] eqn:Hcard; try done.
    apply (one_active _ card). intros i Hi.
    unfold toggle, hide_others.
    rewrite list_lookup_alter_ne, list_lookup_imap by done.
    destruct (cards !! i) as [popup|]; [|done]. simpl.
    rewrite decide_False by done.
    intros Heq. injection Heq. apply deactivate_inactive.
  - rewrite no_active; [simpl; lia|].
    intros i. rewrite list_lookup_fmap.
    destruct (cards !! i) as [popup|]; [|done]. simpl.
    intros Heq. injection Heq. apply deactivate_inactive.
Qed.

Lemma hide_one_active card (cards : Cards) :
  (length (active_popups cards) ≤ 1)%nat →
  (length (active_popups (hide card cards)) ≤ 1)%nat.
Proof.
  intros Hone. etrans; [|exact Hone]. clear Hone. unfold hide, active_popups.
  revert card. induction cards as [|popup cards IH]; intros card; [done|].
  destruct card as [|card]; simpl; rewrite !filter_cons.
  - rewrite decide_False by apply deactivate_inactive. case_decide; simpl; lia.
  - case_decide; simpl; [apply le_n_S|]; apply IH.
Qed.

(** The grid of [popup.js] shows at most one [.product-popup] at a time,
    whatever is clicked or saved, from the cards as they are rendered. *)
Lemma at_most_one_product_popup (actions : list Action) (cards : Cards) :
  rendered cards →
  (length (active_popups (foldl (λ cs a, act a cs) cards actions)) ≤ 1)%nat.
Proof.
  intros Hr.
  assert (Hone : (length (active_popups cards) ≤ 1)%nat).
  { rewrite no_active; [simpl; lia|]. intros i Hi.
    apply (Forall_lookup_1 _ _ _ _ Hr) in Hi. done. }
  clear Hr. revert cards Hone.
  induction actions as [|a actions IH]; intros cards Hone; simpl; [done|].
  apply IH. destruct a as [t|card]; simpl.
  - by apply on_click_one_active.
  - by apply hide_one_active.
Qed.

End PopupOnClickSpec.

(** ** enhanced_popup.js *)

Module EnhancedPopupSpec.

Import EnhancedPopup.

(** *** What the helpers leave alone *)

Lemma showLoadingOverlay_keeps ui :
  overlays (showLoadingOverlay ui) = overlays ui ∧
  notifications (showLoadingOverlay ui) = notifications ui ∧
  pending (showLoadingOverlay ui) = pending ui.
Proof. unfold showLoadingOverlay. by destruct (loading ui) as [[n b]|]. Qed.

Lemma hideLoadingOverlay_keeps ui :
  overlays (hideLoadingOverlay ui) = overlays ui ∧
  notifications (hideLoadingOverlay ui) = notifications ui ∧
  pending (hideLoadingOverlay ui) = pending ui ∧
  fresh (hideLoadingOverlay ui) = fresh ui ∧
  timers ui `prefix_of` timers (hideLoadingOverlay ui).
Proof.
  unfold hideLoadingOverlay. destruct (loading ui) as [[n b]|]; simpl; [|done].
  repeat split. by apply prefix_app_r.
Qed.

Lemma gallery_failed_spec ui :
  overlays (gallery_failed ui) = overlays ui ∧
  pending (gallery_failed ui) = pending ui ∧
  notifications (gallery_failed ui)
    = notifications ui ++
        [mkNotification (fresh ui)
           "Failed to load product gallery. Please try again." "error" false].
Proof.
  unfold gallery_failed.
  destruct (hideLoadingOverlay_keeps ui) as (Ho & Hn & Hp & Hf & _).
  simpl. by rewrite Ho, Hn, Hp, Hf.
Qed.

(** *** The markup of the product popup has no [.popup-content] *)

Lemma first_some_app {A B} (f : A → option B) l1 l2 :
  first_some f (l1 ++ l2)
  = match first_some f l1 with Some y => Some y | None => first_some f l2 end.
Proof. induction l1 as [|x l1 IH]; simpl; [done|]. by destruct (f x). Qed.

Lemma first_some_const {A B C} (f : A → option B) (x : A) (l : list C) :
  f x = None → first_some f ((λ _, x) <$> l) = None.
Proof. intros Hx. induction l as [|c l IH]; simpl; [done|]. by rewrite Hx. Qed.

Lemma not_in_classes (cls : string) (classes : list string) :
  bool_decide (cls ∈ classes) = false → cls ∉ classes.
Proof. apply bool_decide_eq_false. Qed.

Lemma find_class_other cls tag classes children :
  cls ∉ classes →
  find_class cls (Element tag classes children) = first_some (find_class cls) children.
Proof. intros Hnot. simpl. by rewrite decide_False. Qed.

Lemma galleryHtml_has_no_popup_content d :
  first_some (find_class "popup-content") (galleryHtml d) = None.
Proof.
  unfold galleryHtml. destruct (additional_images d) as [|img imgs]; [done|].
  cbn [first_some].
  rewrite find_class_other by (apply not_in_classes; by vm_compute).
  cbn [first_some].
  rewrite (find_class_other _ "h4") by (apply not_in_classes; by vm_compute).
  cbn [first_some].
  rewrite (find_class_other _ "div") by (apply not_in_classes; by vm_compute).
  by rewrite first_some_const.
Qed.

Lemma product_markup_has_no_popup_content d :
  querySelector "popup-content"
    (Element "div" ["enhanced-popup-container"] [createProductPopupHtml d]) = None.
Proof.
  unfold querySelector, createProductPopupHtml. cbn [first_some].
  rewrite find_class_other by (apply not_in_classes; by vm_compute).
  rewrite first_some_app, galleryHtml_has_no_popup_content.
  assert (Hfixed : first_some (find_class "popup-content") [popup_header d; popup_body d]
                   = None) by (by vm_compute).
  by rewrite Hfixed.
Qed.

(** [showProductGalleryPopup] never attaches an overlay: whatever the two
    calls bring, it ends in its [catch]. *)
Lemma gallery_popup_never_attached product gallery ui :
  showProductGalleryPopup_settled product gallery ui = gallery_failed ui.
Proof.
  destruct product as [|[d|]], gallery as [|[images|]]; try done.
  unfold showProductGalleryPopup_settled, gallery_loaded.
  by rewrite product_markup_has_no_popup_content.
Qed.

(** *** Responses that arrive late *)

(** C4, as the script has it.  The callback of a product popup request does
    not look at what is open.  In every state of the document, when the
    request settles with a body that renders, the callback attaches a new
    product popup after the overlays that exist, which it leaves as they
    are, and schedules its activation; when the request fails, it leaves the
    overlays alone and adds the error notification. *)
Theorem product_response_opens_popup_in_any_state ui i productId :
  pending ui !! i = Some (ProductPopupFetch productId) →
  (∀ d, let ui' := step (ProductPopupSettles i (Some d)) ui in
     overlays ui'
       = overlays ui ++
           [mkOverlay (fresh ui) (ProductPopup d) true false false false "Save Changes" false] ∧
     notifications ui' = notifications ui ∧
     pending ui' = delete i (pending ui) ∧
     (10%nat, ActivateOverlay (fresh ui)) ∈ timers ui') ∧
  (let ui' := step (ProductPopupSettles i None) ui in
   overlays ui' = overlays ui ∧
   pending ui' = delete i (pending ui) ∧
   notifications ui'
     = notifications ui ++
         [mkNotification (fresh ui) "Error"
            "Could not load product details. Please try again." false]).
Proof.
  intros Hi. split.
  - intros d. unfold step, settle. rewrite Hi.
    unfold showEnhancedProductPopup_settled.
    set (u := set_pending (delete i (pending ui)) ui).
    set (u' := setTimeout 10 (ActivateOverlay (fresh u)) (appendOverlay (ProductPopup d) false u)).
    destruct (hideLoadingOverlay_keeps u') as (Ho & Hn & Hp & _ & Ht).
    cbv zeta. rewrite Ho, Hn, Hp. repeat split.
    eapply elem_of_prefix; [|exact Ht]. simpl. apply elem_of_app. right. by left.
  - unfold step, settle. rewrite Hi.
    unfold showEnhancedProductPopup_settled.
    set (u := set_pending (delete i (pending ui)) ui).
    destruct (hideLoadingOverlay_keeps u) as (Ho & Hn & Hp & Hf & _).
    cbv zeta. simpl. by rewrite Ho, Hn, Hp, Hf.
Qed.

Lemma product_response_opens_popup_in_any_state_witness :
  let before := run [ClickProductImage "1"; KeyEscape] page in
  let after := step (ProductPopupSettles 0 (Some lamp)) before in
  pending before !! 0%nat = Some (ProductPopupFetch "1") ∧
  overlays after
    = overlays before ++
        [mkOverlay (fresh before) (ProductPopup lamp) true false false false
           "Save Changes" false] ∧
  pending after = [].
Proof.
  intros before after.
  assert (Hi : pending before !! 0%nat = Some (ProductPopupFetch "1")) by (by vm_compute).
  destruct (product_response_opens_popup_in_any_state before 0 "1" Hi) as [Hok _].
  destruct (Hok lamp) as (Ho & _ & Hp & _).
  split; [done|]. split; [exact Ho|exact Hp].
Defined.

(** C4 fails on the script.  With the popup of product 1 closed by "View All
    Images" and removed, and the gallery still loading, the late answer to
    the click on product 2 attaches a product popup, which the next timer
    makes visible.  Likewise a popup appears when its answer arrives after
    Escape was pressed during loading. *)
Lemma stale_product_response_opens_popup :
  (let before := run view_all_while_loading page in
   let after := step (ProductPopupSettles 0 (Some desk)) before in
   pending before = [ProductPopupFetch "2"; GalleryFetch "1"] ∧
   attached_overlays before = [] ∧
   content <$> attached_overlays after = [ProductPopup desk] ∧
   after ≠ before ∧
   content <$> visible_overlays (step (TimerFires 0) after) = [ProductPopup desk]) ∧
  (let before := run [ClickProductImage "1"; TimerFires 0; KeyEscape] page in
   let after := step (ProductPopupSettles 0 (Some lamp)) before in
   attached_overlays before = [] ∧
   content <$> attached_overlays after = [ProductPopup lamp] ∧
   after ≠ before).
Proof.
  split; repeat split; by vm_compute.
Qed.

(** *** One popup at a time *)

(** C6 fails on the script.  [showEnhancedProductPopup] closes nothing
    before it attaches its overlay: after two clicks on product images and
    their two answers, two product popups are attached and visible at the
    same time. *)
Theorem two_product_popups_visible :
  content <$> visible_overlays (run two_clicks page) = [ProductPopup lamp; ProductPopup desk] ∧
  length (attached_overlays (run two_clicks page)) = 2%nat.
Proof. split; by vm_compute. Qed.

(** *** The gallery join *)



(** *** Saving *)

(** The save button of an image popup: a click on the enabled button sends
    the request and disables the button, and a second click does nothing. *)
Lemma image_save_disables_button ui n o d :
  overlay_at n ui = Some o →
  content o = ImagePopup d →
  save_disabled o = false →
  let ui' := step (ClickSave n) ui in
  pending ui' = pending ui ++ [SaveImageFetch n (image_product_id d) (image_id d)] ∧
  (∃ o', overlay_at n ui' = Some o' ∧ content o' = ImagePopup d ∧ save_disabled o' = true) ∧
  step (ClickSave n) ui' = ui'.
Proof.
  intros Hat Hc Hen.
  assert (Hstep : step (ClickSave n) ui
                  = saveImageChanges n (image_product_id d) (image_id d) ui)
    by (simpl; by rewrite Hat, Hc, Hen).
  assert (Hat' : overlay_at n (step (ClickSave n) ui) = Some (set_save "Saving..." true o)).
  { rewrite Hstep. unfold saveImageChanges, overlay_at in *. simpl.
    destruct (showLoadingOverlay_keeps ui) as (-> & _ & _).
    destruct (list_find _ (overlays ui)) as [[k o0]|] eqn:Hfind; [|done].
    injection Hat as ->.
    apply list_find_Some in Hfind as (Hk & [Hnode Hatt] & Hfirst).
    assert (Hfind' : list_find (λ o1, node o1 = n ∧ attached o1 = true)
                       ((λ o1, if decide (node o1 = n) then set_save "Saving..." true o1 else o1)
                          <$> overlays ui)
                     = Some (k, set_save "Saving..." true o)).
    { apply list_find_Some. split; [|split].
      - by rewrite list_lookup_fmap, Hk; simpl; rewrite decide_True.
      - done.
      - intros j y Hj Hlt. rewrite list_lookup_fmap in Hj.
        destruct (overlays ui !! j) as [oj|] eqn:Hoj; [|done].
        injection Hj as <-. specialize (Hfirst j oj Hoj Hlt).
        by destruct (decide (node oj = n)). }
    by rewrite Hfind'. }
  intros ui'. subst ui'. split; [|split].
  - rewrite Hstep. unfold saveImageChanges. simpl.
    by destruct (showLoadingOverlay_keeps ui) as (_ & _ & ->).
  - eexists. split; [exact Hat'|]. by rewrite <- Hc.
  - set (u := step (ClickSave n) ui) in *. unfold step. rewrite Hat'.
    simpl. by rewrite Hc.
Qed.

(** The save button of a product popup: a click sends the request and leaves
    every overlay, the button included, as it was. *)
Lemma product_save_leaves_button ui n o d :
  overlay_at n ui = Some o →
  content o = ProductPopup d →
  product_id d ≠ "" →
  overlays (step (ClickSave n) ui) = overlays ui ∧
  pending (step (ClickSave n) ui) = pending ui ++ [SaveProductFetch (product_id d)].
Proof.
  intros Hat Hc Hid. unfold step. rewrite Hat, Hc.
  apply String.eqb_neq in Hid as ->.
  unfold savePopupChanges. simpl.
  by destruct (showLoadingOverlay_keeps ui) as (-> & _ & ->).
Qed.

(** After the answer to an image save the button is still disabled: the
    [finally] block that would reset it stops at its first statement. *)
Example image_save_button_stays_disabled :
  pending (run save_image (init [])) = [] ∧
  save_disabled <$> overlay_at 1 (run save_image (init [])) = Some true ∧
  save_label <$> overlay_at 1 (run save_image (init [])) = Some "Saving...".
Proof. repeat split; by vm_compute. Qed.

(** C9 fails on the script.  [savePopupChanges] leaves the save button of
    the product popup enabled while its request is in flight: "Save Changes"
    triggered twice before any answer sends two PUT requests for the same
    product. *)
Theorem double_save_sends_two_requests :
  let ui := run double_save page in
  filter (λ f, mutating f = true) (pending ui)
    = [SaveProductFetch "1"; SaveProductFetch "1"] ∧
  save_disabled <$> overlay_at 1 ui = Some false.
Proof. split; by vm_compute. Qed.

End EnhancedPopupSpec.

(** ** The product router, continued *)

Module ProductStoreSpec.

Import ProductRoutes ProductStore JsFacts ProductRoutesSpec.

Lemma find_after_put param body (products : list Product) k old :
  list_find (has_id param) products = Some (k, old) →
  list_find (has_id param) (<[k := merge old body]> products) = Some (k, merge old body).
Proof.
  intros Hfind. apply list_find_Some in Hfind as (Hk & Hid & Hfirst).
  apply list_find_Some. split; [|split].
  - apply list_lookup_insert_eq. by eapply lookup_lt_Some.
  - exact Hid.
  - intros j p Hj Hlt. rewrite list_lookup_insert_ne in Hj by lia. by eapply Hfirst.
Qed.

Lemma js_or_idemp b v : js_or b (js_or b v) = js_or b v.
Proof. unfold js_or. by destruct (truthy b) eqn:Hb; rewrite ?Hb. Qed.

Lemma merge_idemp old body : merge (merge old body) body = merge old body.
Proof. unfold merge. simpl. by rewrite !js_or_idemp. Qed.

(** Read your write: after an update of a product that exists, a read of the
    same id answers with the product the update answered with. *)
Theorem get_after_put (products : list Product) i body k old :
  list_find (has_id (Some i)) products = Some (k, old) →
  Json 200 (PProduct (merge old body)) = (put (Some i) body products).2 ∧
  get_by_id (Some i) (put (Some i) body products).1 = (put (Some i) body products).2.
Proof.
  intros Hfind. unfold put. rewrite Hfind. simpl. split; [done|].
  unfold get_by_id. by rewrite (find_after_put _ body _ _ _ Hfind).
Qed.

Lemma get_after_put_witness :
  get_by_id (Some 2) (put (Some 2) {[ "name" := JStr "Gadget" ]} initial_products).1
  = Json 200
      (PProduct
         (mkProduct 2 (JStr "Gadget") (JStr "This is product 2") (JNum 29.99%float)
            (JStr "/images/product2.jpg") (JStr "/images/thumbnails/product2.jpg"))).
Proof.
  pose (old := mkProduct 2 (JStr "Product 2") (JStr "This is product 2") (JNum 29.99%float)
                 (JStr "/images/product2.jpg") (JStr "/images/thumbnails/product2.jpg")).
  destruct (get_after_put initial_products 2 {[ "name" := JStr "Gadget" ]} 1 old)
    as [Hresp Hget]; [by vm_compute|].
  rewrite Hget, <- Hresp. by vm_compute.
Defined.

(** An update never renumbers and never adds or drops a product, whatever
    the body holds (an [id] key included): the ids of the store, in order,
    are what they were; every position but the updated one keeps its
    product; and when no product has the id, the answer is 404 and the store
    is untouched. *)
Theorem put_keeps_the_rest param body (products : list Product) :
  id <$> (put param body products).1 = id <$> products ∧
  length (put param body products).1 = length products ∧
  (∀ k old j, list_find (has_id param) products = Some (k, old) → j ≠ k →
     (put param body products).1 !! j = products !! j) ∧
  (list_find (has_id param) products = None →
     put param body products = (products, not_found)).
Proof.
  unfold put.
  destruct (list_find (has_id param) products) as [[k old]|] eqn:Hfind; simpl.
  - apply find_has_id in Hfind as [Hk _]. split; [|split; [|split]].
    + rewrite list_fmap_insert. simpl. apply list_insert_id.
      by rewrite list_lookup_fmap, Hk.
    + apply length_insert.
    + intros k' old' j Heq Hj. injection Heq as <- <-.
      by apply list_lookup_insert_ne.
    + done.
  - repeat split; done.
Qed.

(** An update is idempotent: the same request a second time answers the same
    and leaves the store as the first left it. *)
Theorem put_idempotent param body (products : list Product) :
  put param body (put param body products).1 = put param body products.
Proof.
  unfold put at 2 3.
  destruct (list_find (has_id param) products) as [[k old]|] eqn:Hfind; simpl.
  - unfold put. rewrite (find_after_put _ body _ _ _ Hfind).
    by rewrite merge_idemp, list_insert_insert_eq.
  - unfold put. by rewrite Hfind.
Qed.

(** Delete keeps exactly the products with another id, in their order, and
    drops every product that has the id, duplicates included; it answers 200
    exactly when there was one, and then the store is strictly shorter. *)
Theorem delete_drops_every_match param (products : list Product) :
  (delete param products).1 = filter (λ p, ¬ has_id param p) products ∧
  ((delete param products).2 = deleted ↔ ¬ absent param products) ∧
  ((delete param products).2 = not_found ↔ absent param products) ∧
  ((delete param products).2 = deleted →
     (length (delete param products).1 < length products)%nat).
Proof.
  unfold delete.
  destruct (list_find (has_id param) products) as [[k p]|] eqn:Hfind; simpl.
  - assert (Hnot : ¬ absent param products).
    { intros Habs. apply find_absent in Habs. congruence. }
    split; [done|]. split; [done|]. split; [split; [done|by intros ?]|].
    intros _. apply find_has_id in Hfind as [Hk Hid].
    apply (length_filter_lt _ _ p); [by eapply list_elem_of_lookup_2|tauto].
  - apply find_absent in Hfind as Habs.
    split; [|split; [|split]].
    + symmetry. clear Hfind. induction Habs as [|p l Hp _ IH]; [done|].
      by rewrite filter_cons_True, IH.
    + split; [done|by intros ?].
    + done.
    + done.
Qed.

(** *** What every store holds *)

Lemma js_or_truthy_r a b : truthy b = true → truthy (js_or a b) = true.
Proof. unfold js_or. by destruct (truthy a) eqn:Ha. Qed.

Lemma displayable_handle r (products : list Product) :
  Forall displayable products → Forall displayable (handle r products).1.
Proof.
  intros Hall. destruct r as [|param|body|param body|param]; simpl; try done.
  - apply Forall_app. split; [done|]. apply Forall_singleton.
    split; simpl; by apply js_or_truthy_r.
  - unfold put.
    destruct (list_find (has_id param) products) as [[k old]|] eqn:Hfind; simpl; [|done].
    apply find_has_id in Hfind as [Hk _].
    destruct (Forall_lookup_1 _ _ _ _ Hall Hk) as [Himg Hthumb].
    apply Forall_insert; [done|]. split; simpl; by apply js_or_truthy_r.
  - unfold delete.
    destruct (list_find (has_id param) products) as [found|]; simpl; [|done].
    apply Forall_forall. intros p Hp. apply list_elem_of_filter in Hp as [_ Hp].
    rewrite Forall_forall in Hall. by apply Hall.
Qed.

(** Whatever requests were served since the start, every product of the
    store has a truthy image and a truthy thumbnail: create falls back to the
    placeholders, and no update can blank them. *)
Theorem always_displayable (rs : list Request) :
  Forall displayable (serve rs initial_products).
Proof.
  unfold serve.
  assert (Hinit : Forall displayable initial_products) by (repeat constructor).
  revert Hinit. generalize initial_products.
  induction rs as [|r rs IH]; intros products Hall; simpl; [done|].
  by apply IH, displayable_handle.
Qed.

Lemma positive_handle r (products : list Product) :
  Forall (λ p, 1 ≤ id p) products → Forall (λ p, 1 ≤ id p) (handle r products).1.
Proof.
  intros Hall. destruct r as [|param|body|param body|param]; simpl; try done.
  - apply Forall_app. split; [done|]. apply Forall_singleton.
    change (1 ≤ Z.of_nat (length products) + 1). lia.
  - unfold put.
    destruct (list_find (has_id param) products) as [[k old]|] eqn:Hfind; simpl; [|done].
    apply find_has_id in Hfind as [Hk _].
    apply Forall_insert; [done|]. simpl. apply (Forall_lookup_1 _ _ _ _ Hall Hk).
  - unfold delete.
    destruct (list_find (has_id param) products) as [found|]; simpl; [|done].
    apply Forall_forall. intros p Hp. apply list_elem_of_filter in Hp as [_ Hp].
    rewrite Forall_forall in Hall. by apply Hall.
Qed.

Lemma positive_serve (rs : list Request) :
  Forall (λ p, 1 ≤ id p) (serve rs initial_products).
Proof.
  unfold serve.
  assert (Hinit : Forall (λ p, 1 ≤ id p) initial_products)
    by (repeat constructor; by vm_compute).
  revert Hinit. generalize initial_products.
  induction rs as [|r rs IH]; intros products Hall; simpl; [done|].
  by apply IH, positive_handle.
Qed.

(** Every id of the store is at least 1, whatever was served.  So a route
    parameter that parses to [NaN], to zero or to a negative number is
    answered 404 by read, update and delete alike, and changes nothing. *)
Theorem non_positive_id_not_found (rs : list Request) param body :
  never_an_id param →
  let products := serve rs initial_products in
  get_by_id param products = not_found ∧
  put param body products = (products, not_found) ∧
  delete param products = (products, not_found).
Proof.
  intros Hnever products.
  assert (Habs : absent param products).
  { eapply Forall_impl; [apply positive_serve|].
    intros p Hp. unfold has_id. destruct param as [n|]; [|done].
    simpl in Hnever, Hp. intros Heq. injection Heq as Heq. lia. }
  split; [by apply get_absent|]. split; [|by apply delete_absent].
  apply find_absent in Habs. unfold put. by rewrite Habs.
Qed.

Lemma non_positive_id_not_found_witness :
  let products := serve [Delete (Some 2); Post ∅] initial_products in
  get_by_id (Some 0) products = not_found ∧
  put None {[ "name" := JStr "Gadget" ]} products = (products, not_found) ∧
  delete (Some (-3)) products = (products, not_found).
Proof.
  intros products. split; [|split].
  - apply (non_positive_id_not_found [Delete (Some 2); Post ∅] (Some 0) ∅). simpl. lia.
  - apply (non_positive_id_not_found [Delete (Some 2); Post ∅] None
             {[ "name" := JStr "Gadget" ]}). exact I.
  - apply (non_positive_id_not_found [Delete (Some 2); Post ∅] (Some (-3)) ∅). simpl. lia.
Defined.

(** *** Create, then read or delete *)

Lemma numbered_absent_next (products : list Product) :
  numbered products → absent (Some (next_id products)) products.
Proof.
  unfold numbered, absent, next_id. intros Hn.
  apply Forall_forall. intros p Hp Hid. unfold has_id in Hid. injection Hid as Hid.
  assert (Hin : id p ∈ id <$> products) by (by apply list_elem_of_fmap_2).
  rewrite Hn in Hin. apply list_elem_of_fmap in Hin as (n & Heq & Hin).
  apply elem_of_seq in Hin. lia.
Qed.

Lemma numbered_serve (rs : list Request) :
  Forall (λ r, is_delete r = false) rs → numbered (serve rs initial_products).
Proof.
  intros Hrs. unfold serve. generalize numbered_initial. generalize initial_products.
  induction Hrs as [|r rs Hr _ IH]; intros products Hp; simpl; [done|].
  apply IH. by apply numbered_handle.
Qed.

Lemma find_after_post body (products : list Product) :
  absent (Some (next_id products)) products →
  ∃ created,
    post body products = (products ++ [created], Json 201 (PProduct created)) ∧
    id created = next_id products ∧
    list_find (has_id (Some (next_id products))) (products ++ [created])
      = Some (length products, created).
Proof.
  intros Habs. eexists. split; [reflexivity|]. split; [reflexivity|].
  apply list_find_Some. split; [|split].
  - by rewrite lookup_app_r, Nat.sub_diag.
  - done.
  - intros j p Hj Hlt. rewrite lookup_app_l in Hj by done.
    apply (Forall_lookup_1 _ _ _ _ Habs Hj).
Qed.

Lemma filter_absent param (products : list Product) :
  absent param products → filter (λ p, ¬ has_id param p) products = products.
Proof.
  intros Habs. induction Habs as [|p l Hp _ IH]; [done|].
  by rewrite filter_cons_True, IH.
Qed.

(** When no product has the next id, a create followed by a read of the id
    it gave answers with the created product, and a delete of that id puts
    the store back as it was before the create. *)
Theorem post_then_get_or_delete body (products : list Product) :
  absent (Some (next_id products)) products →
  ∃ created,
    (post body products).2 = Json 201 (PProduct created) ∧
    id created = next_id products ∧
    get_by_id (Some (next_id products)) (post body products).1
      = Json 200 (PProduct created) ∧
    delete (Some (next_id products)) (post body products).1 = (products, deleted).
Proof.
  intros Habs.
  destruct (find_after_post body products Habs) as (created & Hpost & Hid & Hfind).
  exists created. rewrite Hpost. simpl. split; [done|]. split; [done|].
  unfold get_by_id, delete. rewrite Hfind. split; [done|].
  rewrite filter_app, (filter_absent _ _ Habs), filter_cons_False, filter_nil.
  - by rewrite app_nil_r.
  - intros Hnot. apply Hnot. unfold has_id. by rewrite Hid.
Qed.

Lemma post_then_get_or_delete_witness :
  let body : gmap string JsVal :=
    {[ "name" := JStr "Widget"; "description" := JStr "A widget";
       "price" := JNum 19.99%float ]} in
  let widget := mkProduct 4 (JStr "Widget") (JStr "A widget") (JNum 19.99%float)
                  (JStr "/images/placeholder.jpg")
                  (JStr "/images/thumbnails/placeholder.jpg") in
  get_by_id (Some 4) (post body initial_products).1 = Json 200 (PProduct widget) ∧
  delete (Some 4) (post body initial_products).1 = (initial_products, deleted).
Proof.
  intros body widget.
  destruct (post_then_get_or_delete body initial_products)
    as (created & Hpost & _ & Hget & Hdel); [repeat constructor; by vm_compute|].
  assert (created = widget) as ->
    by (vm_compute in Hpost; injection Hpost as <-; reflexivity).
  split; [exact Hget|exact Hdel].
Defined.

(** As long as nothing was deleted, the next id is free: every create can be
    read back under the id it was given. *)
Theorem post_readable_without_delete (rs : list Request) body :
  Forall (λ r, is_delete r = false) rs →
  let products := serve rs initial_products in
  ∃ created,
    (post body products).2 = Json 201 (PProduct created) ∧
    get_by_id (Some (id created)) (post body products).1 = Json 200 (PProduct created).
Proof.
  intros Hrs products.
  assert (Habs : absent (Some (next_id products)) products)
    by (by apply numbered_absent_next, numbered_serve).
  destruct (find_after_post body products Habs) as (created & Hpost & Hid & Hfind).
  exists created. rewrite Hpost, Hid. simpl. split; [done|].
  unfold get_by_id. by rewrite Hfind.
Qed.

Lemma post_readable_without_delete_witness :
  ∃ created,
    (post ∅ (serve [Post ∅; Put (Some 4) {[ "name" := JStr "Gadget" ]}]
               initial_products)).2 = Json 201 (PProduct created) ∧
    get_by_id (Some (id created))
      (post ∅ (serve [Post ∅; Put (Some 4) {[ "name" := JStr "Gadget" ]}]
                 initial_products)).1 = Json 200 (PProduct created).
Proof.
  apply (post_readable_without_delete
           [Post ∅; Put (Some 4) {[ "name" := JStr "Gadget" ]}] ∅).
  repeat constructor.
Defined.

Lemma ids_distinct_without_delete_witness :
  NoDup (id <$> serve [Post ∅; Put (Some 1) ∅; Post ∅; GetAll] initial_products).
Proof. apply ids_distinct_without_delete. repeat constructor. Defined.

End ProductStoreSpec.

(** ** enhanced_popup.js, continued *)

Module PopupLifeSpec.

Import EnhancedPopup PopupLife EnhancedPopupSpec.

(** *** The gallery *)

(** "View All Images" never shows a gallery.  Whatever the two calls bring,
    as long as the fields of the product body hold text and no markup, the
    answer leaves every overlay as it is and adds the failure notification:
    the gallery section has no [.popup-content] to go to. *)
Theorem gallery_never_opens ui i productId product gallery :
  pending ui !! i = Some (GalleryFetch productId) →
  (∀ d, product = Fulfilled (Some d) → text_only d) →
  let ui' := step (GallerySettles i product gallery) ui in
  overlays ui' = overlays ui ∧
  pending ui' = delete i (pending ui) ∧
  notifications ui'
    = notifications ui ++
        [mkNotification (fresh ui)
           "Failed to load product gallery. Please try again." "error" false].
Proof.
  intros Hi _. unfold step, settle. rewrite Hi. cbv zeta.
  rewrite gallery_popup_never_attached.
  set (u := set_pending (delete i (pending ui)) ui).
  destruct (gallery_failed_spec u) as (Ho & Hp & Hn).
  by rewrite Ho, Hp, Hn.
Qed.

Lemma gallery_never_opens_witness :
  let before := run [ClickProductImage "2"; TimerFires 0; ProductPopupSettles 0 (Some desk);
                     TimerFires 0; TimerFires 0; ClickViewAll 1] page in
  let after := step (GallerySettles 0 (Fulfilled (Some desk)) (Fulfilled (Some []))) before in
  overlays after = overlays before ∧
  attached_overlays (step (TimerFires 0) after) = [] ∧
  notification_title <$> notifications after
    = ["Failed to load product gallery. Please try again."].
Proof.
  intros before after.
  assert (Hi : pending before !! 0%nat = Some (GalleryFetch "2")) by (by vm_compute).
  assert (Htext : ∀ d, Fulfilled (Some desk) = Fulfilled (Some d) → text_only d).
  { intros d Hd. injection Hd as <-. unfold text_only. repeat constructor. }
  destruct (gallery_never_opens before 0 "2" (Fulfilled (Some desk)) (Fulfilled (Some []))
              Hi Htext)
    as (Ho & _ & Hn).
  split; [exact Ho|]. split; [by vm_compute|].
  fold after in Hn. rewrite Hn. by vm_compute.
Defined.

(** *** What no event undoes *)

Lemma keeps_refl o : keeps o o.
Proof. by repeat split. Qed.

Lemma keeps_trans o1 o2 o3 : keeps o1 o2 → keeps o2 o3 → keeps o1 o3.
Proof.
  intros (Hn & Hc & Hs) (Hn' & Hc' & Hs'). unfold keeps.
  rewrite Hn', Hn, Hc', Hc. auto.
Qed.

Lemma extends_refl l : extends l l.
Proof.
  exists l, []. split; [by rewrite app_nil_r|].
  apply Forall2_same_length_lookup_2; [done|].
  intros i o o' Ho Ho'. assert (o = o') as -> by congruence. apply keeps_refl.
Qed.

Lemma extends_app l l' l2 : extends l l' → extends l (l' ++ l2).
Proof.
  intros (l1 & l3 & -> & Hall). exists l1, (l3 ++ l2). split; [|done].
  by rewrite app_assoc.
Qed.

Lemma extends_fmap (f : Overlay → Overlay) l l' :
  (∀ o, keeps o (f o)) → extends l l' → extends l (f <$> l').
Proof.
  intros Hf (l1 & l2 & -> & Hall). exists (f <$> l1), (f <$> l2).
  split; [by rewrite fmap_app|].
  apply Forall2_fmap_r. eapply Forall2_impl; [exact Hall|].
  intros o o' Hk. eapply keeps_trans; [exact Hk|apply Hf].
Qed.

Lemma extends_trans l1 l2 l3 : extends l1 l2 → extends l2 l3 → extends l1 l3.
Proof.
  intros (a & b & -> & Hab) (c & d & -> & Hcd).
  apply Forall2_app_inv_l in Hcd as (c1 & c2 & Hc1 & _ & ->).
  exists c1, (c2 ++ d). split; [by rewrite app_assoc|].
  eapply Forall2_trans; [|exact Hab|exact Hc1].
  apply keeps_trans.
Qed.

(** Unfolding the script's helpers down to the fields of the document. *)
Ltac open_ui :=
  unfold step, settle, run_task, refreshCard,
    showEnhancedProductPopup_settled, showEnhancedImagePopup_settled,
    showProductGalleryPopup_settled, gallery_loaded, gallery_failed,
    savePopupChanges_settled, saveImageChanges_settled,
    showEnhancedProductPopup, showEnhancedImagePopup, showProductGalleryPopup,
    savePopupChanges, saveImageChanges,
    closeAllEnhancedPopups, closeNotification, showNotification,
    showLoadingOverlay, hideLoadingOverlay, appendOverlay,
    update_overlay, update_notification, fetch, setTimeout in *.

Ltac keeps_field :=
  intros ?; repeat case_match; unfold keeps; simpl; auto.

Ltac extends_by_shape :=
  repeat first
    [ apply extends_refl
    | apply extends_app
    | apply extends_fmap; [keeps_field|] ].

Ltac cases_ui :=
  open_ui; repeat first [ progress simplify_eq | progress simpl in * | case_match ].

Lemma step_extends e ui : extends (overlays ui) (overlays (step e ui)).
Proof. destruct e; cases_ui; extends_by_shape. Qed.

Lemma run_extends es ui : extends (overlays ui) (overlays (run es ui)).
Proof.
  unfold run. revert ui. induction es as [|e es IH]; intros ui; simpl.
  - apply extends_refl.
  - eapply extends_trans; [apply step_extends|apply IH].
Qed.

Lemma element_extends n l l' o :
  extends l l' →
  snd <$> list_find (λ o, node o = n) l = Some o →
  ∃ o', snd <$> list_find (λ o, node o = n) l' = Some o' ∧ keeps o o'.
Proof.
  intros (l1 & l2 & -> & Hall) Hfind.
  destruct (list_find (λ o, node o = n) l) as [[k o0]|] eqn:Hk; [|done].
  injection Hfind as ->.
  apply list_find_Some in Hk as (Hk & Hn & Hfirst).
  destruct (Forall2_lookup_l _ _ _ _ _ Hall Hk) as (o' & Hk' & Hkeeps).
  exists o'. split; [|done].
  assert (Hfind' : list_find (λ o, node o = n) (l1 ++ l2) = Some (k, o')).
  { apply list_find_Some. split; [|split].
    - by apply lookup_app_l_Some.
    - destruct Hkeeps as (-> & _). done.
    - intros j oj Hj Hlt.
      assert (Hjl : is_Some (l !! j)).
      { apply lookup_lt_is_Some. apply lookup_lt_Some in Hk. lia. }
      destruct Hjl as [oj0 Hoj0].
      destruct (Forall2_lookup_l _ _ _ _ _ Hall Hoj0) as (oj' & Hoj' & (Hnode & _)).
      rewrite (lookup_app_l_Some _ _ _ _ Hoj') in Hj. injection Hj as <-.
      rewrite Hnode. by eapply Hfirst. }
  by rewrite Hfind'.
Qed.

(** No event takes an overlay element back: whatever happens after a save
    button was disabled, the element is still there with the content it had
    and the button still disabled.  (The [finally] block that would enable
    it again never gets that far.) *)
Theorem save_button_never_enabled_again es ui n o :
  element n ui = Some o →
  save_disabled o = true →
  ∃ o', element n (run es ui) = Some o' ∧
        content o' = content o ∧ save_disabled o' = true.
Proof.
  intros Hel Hdis.
  destruct (element_extends n _ _ o (run_extends es ui) Hel) as (o' & Hel' & _ & Hc & Hs).
  exists o'. auto.
Qed.

Lemma save_button_never_enabled_again_witness :
  let saving := run (open_image_popup ++ [ClickSave 1]) (init []) in
  let later := run [TimerFires 0; SaveImageSettles 0 (Some true); TimerFires 1; KeyEscape;
                    TimerFires 0; ClickSave 1] saving in
  save_disabled <$> element 1 saving = Some true ∧
  pending later = [] ∧
  ∃ o', element 1 later = Some o' ∧
        content o' = ImagePopup front_view ∧ save_disabled o' = true.
Proof.
  intros saving later.
  split; [by vm_compute|]. split; [by vm_compute|].
  destruct (element 1 saving) as [o|] eqn:Hel; [|by vm_compute in Hel].
  assert (Hc : content o = ImagePopup front_view)
    by (vm_compute in Hel; by injection Hel as <-).
  assert (Hs : save_disabled o = true)
    by (vm_compute in Hel; by injection Hel as <-).
  destruct (save_button_never_enabled_again
              [TimerFires 0; SaveImageSettles 0 (Some true); TimerFires 1; KeyEscape;
               TimerFires 0; ClickSave 1] saving 1 o Hel Hs)
    as (o' & Hel' & Hc' & Hs').
  exists o'. rewrite <- Hc. auto.
Defined.

(** *** Closing *)

(** Escape, at once: no overlay is visible any more, and no request in
    flight is dropped.  Every overlay that was attached has its removal timer
    pending, and when such a timer fires no attached overlay has that node
    any more. *)
Theorem escape_hides_everything ui :
  let ui' := step KeyEscape ui in
  visible_overlays ui' = [] ∧
  pending ui' = pending ui ∧
  (∀ o, o ∈ attached_overlays ui → (300%nat, RemoveOverlay (node o)) ∈ timers ui') ∧
  (∀ i n, timers ui' !! i = Some (300%nat, RemoveOverlay n) →
     overlay_at n (step (TimerFires i) ui') = None).
Proof.
  intros ui'. subst ui'. split; [|split; [done|split]].
  - apply elem_of_nil_inv. intros o Ho.
    apply list_elem_of_filter in Ho as [[Hatt Hact] Hin]. simpl in Hin.
    apply list_elem_of_fmap in Hin as (o0 & -> & _).
    destruct (attached o0) eqn:Ha; simpl in *; congruence.
  - intros o Ho. simpl. apply elem_of_app. right.
    by apply (list_elem_of_fmap_2 (λ o, (300%nat, RemoveOverlay (node o)))).
  - intros i n Hi. unfold step at 1. rewrite Hi.
    unfold run_task, overlay_at, update_overlay. simpl.
    assert (Hnone : list_find (λ o, node o = n ∧ attached o = true)
              ((λ o, if decide (node o = n) then set_attached false o else o) <$>
               ((λ o, if attached o then set_active false false o else o) <$> overlays ui))
            = None).
    { apply list_find_None, Forall_forall. intros o Ho [Hn Ha].
      apply list_elem_of_fmap in Ho as (o0 & -> & _).
      destruct (decide (node o0 = n)); simpl in *; congruence. }
    by rewrite Hnone.
Qed.

(** *** Requests in flight *)

(** Only its answer takes a request out of flight: no click, key or timer
    cancels one.  After any event that is not an answer, the requests that
    were in flight still are, in their order, before any new one. *)
Theorem no_event_cancels e ui :
  settles e = false → pending ui `prefix_of` pending (step e ui).
Proof.
  intros He. destruct e; try done; cases_ui; try done; by apply prefix_app_r.
Qed.

Lemma no_event_cancels_witness :
  let loading_two := run [ClickProductImage "1"; ClickProductImage "2"] page in
  [ProductPopupFetch "1"; ProductPopupFetch "2"]
    `prefix_of` pending (step KeyEscape loading_two).
Proof.
  intros loading_two.
  assert (Hp : pending loading_two = [ProductPopupFetch "1"; ProductPopupFetch "2"])
    by (by vm_compute).
  rewrite <- Hp. by apply no_event_cancels.
Defined.

(** *** The loading overlay *)

Lemma elem_of_delete_other {A} (l : list A) i x y :
  x ∈ l → l !! i = Some y → x ≠ y → x ∈ delete i l.
Proof.
  intros Hx Hi Hne. apply list_elem_of_lookup in Hx as [j Hj].
  apply list_elem_of_lookup. destruct (decide (j < i)%nat).
  - exists j. by rewrite list_lookup_delete_lt.
  - assert (j ≠ i) by congruence. exists (pred j).
    rewrite list_lookup_delete_ge by lia. by replace (S (pred j)) with j by lia.
Qed.

(** The loading overlay is one for all requests, and the first answer hides
    it: when a product popup request settles, with success or not, the
    overlay loses [active] and its removal timer is set, whatever else is
    still in flight; when that timer fires the overlay is gone. *)
Theorem first_answer_hides_loading ui i productId o n b :
  pending ui !! i = Some (ProductPopupFetch productId) →
  loading ui = Some (n, b) →
  let ui' := step (ProductPopupSettles i o) ui in
  loading ui' = Some (n, false) ∧
  pending ui' = delete i (pending ui) ∧
  (300%nat, RemoveLoading n) ∈ timers ui' ∧
  (∀ k, timers ui' !! k = Some (300%nat, RemoveLoading n) →
     loading (step (TimerFires k) ui') = None).
Proof.
  intros Hi Hl ui'.
  assert (Hload : loading ui' = Some (n, false))
    by (subst ui'; destruct o; cases_ui; done).
  split; [done|]. split; [|split].
  - subst ui'. destruct o; cases_ui; done.
  - subst ui'. destruct o; cases_ui; rewrite !elem_of_app, !list_elem_of_singleton; tauto.
  - intros k Hk. unfold step at 1. rewrite Hk. unfold run_task. simpl.
    rewrite Hload. by rewrite decide_True.
Qed.

Lemma first_answer_hides_loading_witness :
  let loading_two := run [ClickProductImage "1"; ClickProductImage "2"; TimerFires 0;
                          TimerFires 0] page in
  let answered := step (ProductPopupSettles 0 (Some lamp)) loading_two in
  pending answered = [ProductPopupFetch "2"] ∧
  loading answered = Some (0%nat, false) ∧
  loading (step (TimerFires 1) answered) = None.
Proof.
  intros loading_two answered.
  destruct (first_answer_hides_loading loading_two 0 "1" (Some lamp) 0%nat true)
    as (Hl & Hp & _ & Hgone); [by vm_compute|by vm_compute|].
  split; [fold answered in Hp; rewrite Hp; by vm_compute|].
  split; [exact Hl|]. apply Hgone. by vm_compute.
Defined.

(** Membership in a list grown at its end or shortened by another element. *)
Ltac still_there :=
  rewrite ?elem_of_app, ?list_elem_of_singleton;
  first
    [ assumption
    | reflexivity
    | eapply elem_of_delete_other;
      [ eassumption | eassumption | first [ congruence | by intros -> ] ]
    | left; still_there
    | right; still_there ].

Ltac accounted_loading Hinv :=
  let n := fresh "n" in
  let b := fresh "b" in
  let Hl := fresh "Hl" in
  intros n b Hl; simpl in Hl |- *; simplify_eq;
  first
    [ right; still_there
    | left; eexists; split; [still_there|reflexivity]
    | match goal with
      | Hl' : loading _ = Some _ |- _ =>
          let f := fresh "f" in
          let Hf := fresh "Hf" in
          let Hloads := fresh "Hloads" in
          let Hin := fresh "Hin" in
          destruct (Hinv _ _ Hl') as [(f & Hf & Hloads)|Hin];
          [ left; exists f; split; [still_there|done]
          | right; still_there ]
      end ].

Lemma step_loading_accounted e ui :
  loading_accounted ui → loading_accounted (step e ui).
Proof.
  intros Hinv. destruct e; cases_ui; try exact Hinv; accounted_loading Hinv.
Qed.

Lemma run_loading_accounted es ui :
  loading_accounted ui → loading_accounted (run es ui).
Proof.
  unfold run. revert ui. induction es as [|e es IH]; intros ui Hinv; simpl; [done|].
  by apply IH, step_loading_accounted.
Qed.

(** The loading overlay does not get stuck: from the page as loaded,
    whatever happened, once no request that shows it is in flight and no
    timer is pending, no loading overlay is in the document. *)
Theorem loading_never_stuck es cards :
  let ui := run es (init cards) in
  (∀ f, f ∈ pending ui → loads f = false) →
  timers ui = [] →
  loading ui = None.
Proof.
  intros ui Hquiet Htimers.
  assert (Hinv : loading_accounted ui)
    by (apply run_loading_accounted; intros n b Hl; discriminate Hl).
  destruct (loading ui) as [[n b]|] eqn:Hl; [|done].
  destruct (Hinv n b Hl) as [(f & Hf & Hloads)|Hin].
  - rewrite (Hquiet f Hf) in Hloads. discriminate.
  - rewrite Htimers in Hin. by apply elem_of_nil in Hin.
Qed.

Lemma loading_never_stuck_witness :
  let ui := run [ClickProductImage "1"; TimerFires 0; ProductPopupSettles 0 None;
                 TimerFires 1; TimerFires 0; TimerFires 0; TimerFires 0] page in
  pending ui = [] ∧ timers ui = [] ∧ loading ui = None.
Proof.
  intros ui.
  assert (Hp : pending ui = []) by (by vm_compute).
  split; [done|]. split; [by vm_compute|].
  apply (loading_never_stuck
           [ClickProductImage "1"; TimerFires 0; ProductPopupSettles 0 None;
            TimerFires 1; TimerFires 0; TimerFires 0; TimerFires 0] ["1"; "2"]).
  - fold page. fold ui. rewrite Hp. intros f Hf. by apply elem_of_nil in Hf.
  - by vm_compute.
Defined.

(** *** Saving an image *)

Lemma image_save_disables_button_witness :
  let opened := run open_image_popup (init []) in
  let saving := step (ClickSave 1) opened in
  pending saving = [SaveImageFetch 1 "1" "7"] ∧
  save_disabled <$> overlay_at 1 saving = Some true ∧
  step (ClickSave 1) saving = saving.
Proof.
  intros opened saving.
  destruct (overlay_at 1 opened) as [o|] eqn:Hat; [|by vm_compute in Hat].
  assert (Hc : content o = ImagePopup front_view)
    by (vm_compute in Hat; by injection Hat as <-).
  assert (Hen : save_disabled o = false)
    by (vm_compute in Hat; by injection Hat as <-).
  destruct (image_save_disables_button opened 1 o front_view Hat Hc Hen)
    as (Hp & (o' & Hat' & _ & Hd) & Hagain).
  split; [exact Hp|]. split; [|exact Hagain].
  fold saving in Hat'. rewrite Hat'. simpl. by rewrite Hd.
Defined.

End PopupLifeSpec.

(** ** popup.js, continued *)

Module GridClicksSpec.

Import PopupOnClick PopupOnClickSpec.

(** A click on the image of a card that has a popup toggles that popup and
    closes every other one; a second click on the same image closes it
    again, so all popups are closed. *)
Theorem image_click_toggles (cards : Cards) card a :
  cards !! card = Some (Some a) →
  let clicked := on_click (OnProductImage card) cards in
  clicked !! card = Some (Some (negb a)) ∧
  (∀ j, j ≠ card → clicked !! j = deactivate <$> cards !! j) ∧
  length clicked = length cards ∧
  (a = false → on_click (OnProductImage card) clicked = deactivate <$> cards).
Proof.
  intros Hcard clicked.
  assert (Hclicked : clicked = toggle card (hide_others card cards))
    by (unfold clicked, on_click; by rewrite Hcard).
  assert (Hat : clicked !! card = Some (Some (negb a))).
  { rewrite Hclicked. unfold toggle, hide_others.
    rewrite list_lookup_alter_eq, list_lookup_imap, Hcard. simpl.
    by rewrite decide_True. }
  assert (Hother : ∀ j, j ≠ card → clicked !! j = deactivate <$> cards !! j).
  { intros j Hj. rewrite Hclicked. unfold toggle, hide_others.
    rewrite list_lookup_alter_ne, list_lookup_imap by done.
    destruct (cards !! j); [|done]. simpl. by rewrite decide_False. }
  assert (Hlen : length clicked = length cards).
  { rewrite Hclicked. unfold toggle, hide_others.
    by rewrite length_alter, length_imap. }
  split; [done|]. split; [done|]. split; [done|].
  intros ->. unfold on_click. rewrite Hat.
  apply list_eq. intros j. unfold toggle, hide_others.
  destruct (decide (j = card)) as [->|Hj].
  - rewrite list_lookup_alter_eq, list_lookup_imap, Hat, list_lookup_fmap, Hcard. simpl.
    by rewrite decide_True.
  - rewrite list_lookup_alter_ne, list_lookup_imap, (Hother j Hj), list_lookup_fmap by done.
    destruct (cards !! j) as [popup|]; simpl; [|done].
    rewrite decide_False by done. by destruct popup.
Qed.

Lemma image_click_toggles_witness :
  on_click (OnProductImage 2) [Some true; None; Some false]
    = [Some false; None; Some true] ∧
  on_click (OnProductImage 2) (on_click (OnProductImage 2) [Some true; None; Some false])
    = [Some false; None; Some false].
Proof.
  destruct (image_click_toggles [Some true; None; Some false] 2 false)
    as (_ & _ & _ & Hagain); [done|].
  split; [by vm_compute|]. by rewrite Hagain.
Defined.

Lemma at_most_one_product_popup_witness :
  (length
     (active_popups
        (foldl (λ cs a, act a cs) [Some false; Some false; None; Some false]
           [Click (OnProductImage 0); Click (OnProductImage 3); Click (InPopup 3);
            Saved 3; Click (OnProductImage 1)])) ≤ 1)%nat.
Proof. apply at_most_one_product_popup. repeat constructor; done. Defined.

End GridClicksSpec.
